(** * Text-to-image editor: the layout and export engine of [TextEditor]

    A shallow embedding of [components/text-editor.tsx]: the style
    descriptor and its mutators, the greedy word wrap, the placement of
    the lines on the canvas and the export handler [downloadAsPNG].

    Conventions of the model:
    - a JavaScript number is an exact rational ([Q]): no rounding, no
      NaN and no infinity;
    - a string is the list of its UTF-16 code units;
    - the canvas is a record of its dimensions, its inline style, the
      state of its 2D context and the list of the operations composited
      on its bitmap; its [width] and [height] are [unsigned long]
      attributes, so an assigned number is stored truncated; every
      statement of the handler is a function from canvas to canvas, and
      the handler threads the canvas through them;
    - the host is a parameter: the text metrics, the PNG encoder and the
      device pixel ratio. *)

From Stdlib Require Import String Ascii.
From Stdlib Require Import List Bool Arith ZArith NArith QArith Qminmax Lia.
From Stdlib Require Import Qround Qabs.
From Stdlib Require Import Lqa.
Import ListNotations.

Set Implicit Arguments.

(* ================================================================== *)
(** * JavaScript strings *)
(* ================================================================== *)

Module JS.

(** A string is its sequence of UTF-16 code units. *)
Definition char := N.
Definition jsstring := list char.

(** An ASCII literal of the source as a [jsstring]. *)
Definition lit (s : string) : jsstring :=
  map N_of_ascii (list_ascii_of_string s).

Definition space : char := 32%N.
Definition newline : char := 10%N.

(** [WhiteSpace] and [LineTerminator] of ECMAScript: what
    [String.prototype.trim] strips and what [\s] matches. *)
Definition is_ws (c : char) : bool :=
  (  (9 <=? c) && (c <=? 13)
  || (c =? 32) || (c =? 160) || (c =? 5760)
  || (8192 <=? c) && (c <=? 8202)
  || (c =? 8232) || (c =? 8233) || (c =? 8239) || (c =? 8287)
  || (c =? 12288) || (c =? 65279))%N.

(** A string is truthy when it is not empty. *)
Definition truthy (s : jsstring) : bool :=
  match s with [] => false | _ :: _ => true end.

Fixpoint dropWhile (p : char -> bool) (s : jsstring) : jsstring :=
  match s with
  | [] => []
  | c :: r => if p c then dropWhile p r else s
  end.

(** [s.trim()] *)
Definition trim (s : jsstring) : jsstring :=
  rev (dropWhile is_ws (rev (dropWhile is_ws s))).

(** [s.split(sep)] for a one-character separator described by [p]:
    every separator character ends a piece, so the empty string gives
    one empty piece and adjacent separators give empty pieces. *)
Fixpoint split_by (p : char -> bool) (s : jsstring) : list jsstring :=
  match s with
  | [] => [[]]
  | c :: r =>
      if p c then [] :: split_by p r
      else match split_by p r with
           | [] => [[c]]
           | w :: ws => (c :: w) :: ws
           end
  end.

Definition split (sep : char) : jsstring -> list jsstring :=
  split_by (N.eqb sep).

(** [s.split(/\s+/)]: the pieces between maximal runs of white space.
    [acc] is the piece being read, reversed; [inrun] tells that the
    previous character was white space. *)
Fixpoint split_ws_from (inrun : bool) (acc : jsstring) (s : jsstring)
  : list jsstring :=
  match s with
  | [] => [rev acc]
  | c :: r =>
      if is_ws c then
        if inrun then split_ws_from true acc r
        else rev acc :: split_ws_from true [] r
      else split_ws_from false (c :: acc) r
  end.

Definition split_ws (s : jsstring) : list jsstring :=
  split_ws_from false [] s.

(** [ws.join(sep)] *)
Fixpoint join (sep : char) (ws : list jsstring) : jsstring :=
  match ws with
  | [] => []
  | [w] => w
  | w :: rest => w ++ sep :: join sep rest
  end.

(** The non-blank words of a string: its maximal runs of characters
    that are not white space. *)
Definition words (s : jsstring) : list jsstring :=
  filter truthy (split_by is_ws s).

(** [xs.forEach((x, i) => ...)] threading a state, from index [i]. *)
Fixpoint forEachi_from {A S : Type} (f : A -> nat -> S -> S)
         (i : nat) (xs : list A) (s : S) : S :=
  match xs with
  | [] => s
  | x :: r => forEachi_from f (Datatypes.S i) r (f x i s)
  end.

Definition forEachi {A S : Type} (f : A -> nat -> S -> S) :=
  forEachi_from f 0.

(** A natural number (an index, a length) as a JavaScript number. *)
Definition Qnat (n : nat) : Q := inject_Z (Z.of_nat n).

End JS.

Import JS.

(* ================================================================== *)
(** * The style descriptor and the editor state *)
(* ================================================================== *)

Inductive Align := Left | Center | Right | Justify.

Definition Align_eqb (a b : Align) : bool :=
  match a, b with
  | Left, Left | Center, Center | Right, Right | Justify, Justify => true
  | _, _ => false
  end.

(** [interface TextStyle] *)
Record TextStyle := mkStyle {
  bold : bool;
  italic : bool;
  underline : bool;
  fontSize : Q;
  color : jsstring;
  align : Align
}.

(** The keys [toggleStyle] accepts. *)
Inductive ToggleKey := key_bold | key_italic | key_underline.

(** [useState<TextStyle>({...})] *)
Definition initialStyle : TextStyle :=
  {| bold := false; italic := false; underline := false;
     fontSize := 11; color := lit "#737373"; align := Left |}.

Definition toggleStyle (property : ToggleKey) (prev : TextStyle) : TextStyle :=
  match property with
  | key_bold =>
      {| bold := negb (bold prev); italic := italic prev;
         underline := underline prev; fontSize := fontSize prev;
         color := color prev; align := align prev |}
  | key_italic =>
      {| bold := bold prev; italic := negb (italic prev);
         underline := underline prev; fontSize := fontSize prev;
         color := color prev; align := align prev |}
  | key_underline =>
      {| bold := bold prev; italic := italic prev;
         underline := negb (underline prev); fontSize := fontSize prev;
         color := color prev; align := align prev |}
  end.

Definition setAlignment (a : Align) (prev : TextStyle) : TextStyle :=
  {| bold := bold prev; italic := italic prev; underline := underline prev;
     fontSize := fontSize prev; color := color prev; align := a |}.

Definition changeFontSize (delta : Q) (prev : TextStyle) : TextStyle :=
  {| bold := bold prev; italic := italic prev; underline := underline prev;
     fontSize := Qmax 8 (Qmin 72 (fontSize prev + delta));
     color := color prev; align := align prev |}.

Definition changeColor (c : jsstring) (prev : TextStyle) : TextStyle :=
  {| bold := bold prev; italic := italic prev; underline := underline prev;
     fontSize := fontSize prev; color := c; align := align prev |}.

(** The range the font-size mutator clamps to. *)
Definition fontSizeOk (st : TextStyle) : Prop := 8 <= fontSize st <= 72.

(** The three pieces of component state. *)
Record Editor := mkEditor {
  text : jsstring;
  title : jsstring;
  style : TextStyle
}.

Definition initialEditor : Editor :=
  {| text := []; title := []; style := initialStyle |}.

(** What the user can do to the editor, one constructor per handler
    wired in the JSX: the two font-size buttons call [changeFontSize]
    with [-1] and [1]. *)
Inductive Action :=
| TypeText (t : jsstring)
| TypeTitle (t : jsstring)
| ClickToggle (k : ToggleKey)
| ClickSmaller
| ClickLarger
| ClickAlign (a : Align)
| PickColor (c : jsstring)
| ClickExport.

Definition withStyle (f : TextStyle -> TextStyle) (e : Editor) : Editor :=
  {| text := text e; title := title e; style := f (style e) |}.

(** The effect of an action on the component state; the export handler
    reads the state and leaves it alone. *)
Definition act (e : Editor) (a : Action) : Editor :=
  match a with
  | TypeText t => {| text := t; title := title e; style := style e |}
  | TypeTitle t => {| text := text e; title := t; style := style e |}
  | ClickToggle k => withStyle (toggleStyle k) e
  | ClickSmaller => withStyle (changeFontSize (-1)) e
  | ClickLarger => withStyle (changeFontSize 1) e
  | ClickAlign a => withStyle (setAlignment a) e
  | PickColor c => withStyle (changeColor c) e
  | ClickExport => e
  end.

Definition run (actions : list Action) : Editor :=
  fold_left act actions initialEditor.

(* ================================================================== *)
(** * The drawing surface *)
(* ================================================================== *)

(** The value of [ctx.font]: the CSS font shorthand the handler composes
    from the style, [italic? bold? <size>px <family>], kept by its parts. *)
Record Font := mkFont {
  font_italic : bool;
  font_bold : bool;
  font_px : Q;
  font_family : string
}.

Inductive Baseline := Alphabetic | Top.

Inductive PathCmd :=
| MoveTo (x y : Q)
| LineTo (x y : Q).

(** The drawing state of a 2D context. Only a scaling is ever applied to
    the transform, so it is kept as its two factors. *)
Record Context2D := mkCtx {
  font : Font;
  fillStyle : jsstring;
  strokeStyle : jsstring;
  lineWidth : Q;
  textBaseline : Baseline;
  scaleX : Q;
  scaleY : Q;
  path : list PathCmd
}.

(** What has been composited onto the bitmap, each operation with the
    drawing state it was executed under. *)
Inductive DrawOp :=
| ClearRect (x y w h : Q) (sx sy : Q)
| FillText (s : jsstring) (x y : Q) (f : Font) (fill : jsstring)
           (b : Baseline) (sx sy : Q)
| Stroke (p : list PathCmd) (stroke : jsstring) (lw : Q) (sx sy : Q).

(** The canvas element: its bitmap dimensions (whole numbers, as
    [Surface.set_width] and [Surface.set_height] store them), the two
    CSS lengths of its inline style (in px, when set), whether
    [getContext("2d")]
    answers, the context's state and the bitmap's contents. *)
Record Canvas := mkCanvas {
  width : Q;
  height : Q;
  style_width : option Q;
  style_height : option Q;
  has_context : bool;
  ctx : Context2D;
  bitmap : list DrawOp
}.

Module Surface.

Definition default_font : Font :=
  {| font_italic := false; font_bold := false; font_px := 10;
     font_family := "sans-serif" |}.

(** The state of a context after a reset. *)
Definition default_ctx : Context2D :=
  {| font := default_font; fillStyle := lit "#000000";
     strokeStyle := lit "#000000"; lineWidth := 1;
     textBaseline := Alphabetic; scaleX := 1; scaleY := 1; path := [] |}.

Definition with_ctx (f : Context2D -> Context2D) (c : Canvas) : Canvas :=
  {| width := width c; height := height c;
     style_width := style_width c; style_height := style_height c;
     has_context := has_context c; ctx := f (ctx c); bitmap := bitmap c |}.

Definition draw (op : Context2D -> DrawOp) (c : Canvas) : Canvas :=
  {| width := width c; height := height c;
     style_width := style_width c; style_height := style_height c;
     has_context := has_context c; ctx := ctx c;
     bitmap := bitmap c ++ [op (ctx c)] |}.

(** [canvas.width] and [canvas.height] are [unsigned long] attributes
    that reflect the content attributes of the element.  An assigned
    number is converted as WebIDL says: truncated toward zero, then
    taken modulo 2^32. *)
Definition toUnsignedLong (v : Q) : Z :=
  ((Qnum v ÷ Zpos (Qden v)) mod 2 ^ 32)%Z.

(** A reflected [unsigned long]: a converted value above 2147483647 is
    replaced by the default of the attribute. *)
Definition reflected (default : Z) (v : Q) : Q :=
  let n := toUnsignedLong v in
  inject_Z (if (n <=? 2147483647)%Z then n else default).

(** [canvas.width = v] (default 300): setting a dimension clears the
    bitmap and resets the context to its default state. *)
Definition set_width (v : Q) (c : Canvas) : Canvas :=
  {| width := reflected 300 v; height := height c;
     style_width := style_width c; style_height := style_height c;
     has_context := has_context c; ctx := default_ctx; bitmap := [] |}.

(** [canvas.height = v] (default 150) *)
Definition set_height (v : Q) (c : Canvas) : Canvas :=
  {| width := width c; height := reflected 150 v;
     style_width := style_width c; style_height := style_height c;
     has_context := has_context c; ctx := default_ctx; bitmap := [] |}.

(** [canvas.style.width = v + "px"] *)
Definition set_style_width (v : Q) (c : Canvas) : Canvas :=
  {| width := width c; height := height c;
     style_width := Some v; style_height := style_height c;
     has_context := has_context c; ctx := ctx c; bitmap := bitmap c |}.

(** [canvas.style.height = v + "px"] *)
Definition set_style_height (v : Q) (c : Canvas) : Canvas :=
  {| width := width c; height := height c;
     style_width := style_width c; style_height := Some v;
     has_context := has_context c; ctx := ctx c; bitmap := bitmap c |}.

Definition set_font (f : Font) : Canvas -> Canvas :=
  with_ctx (fun k =>
    {| font := f; fillStyle := fillStyle k; strokeStyle := strokeStyle k;
       lineWidth := lineWidth k; textBaseline := textBaseline k;
       scaleX := scaleX k; scaleY := scaleY k; path := path k |}).

Definition set_fillStyle (v : jsstring) : Canvas -> Canvas :=
  with_ctx (fun k =>
    {| font := font k; fillStyle := v; strokeStyle := strokeStyle k;
       lineWidth := lineWidth k; textBaseline := textBaseline k;
       scaleX := scaleX k; scaleY := scaleY k; path := path k |}).

Definition set_strokeStyle (v : jsstring) : Canvas -> Canvas :=
  with_ctx (fun k =>
    {| font := font k; fillStyle := fillStyle k; strokeStyle := v;
       lineWidth := lineWidth k; textBaseline := textBaseline k;
       scaleX := scaleX k; scaleY := scaleY k; path := path k |}).

Definition set_lineWidth (v : Q) : Canvas -> Canvas :=
  with_ctx (fun k =>
    {| font := font k; fillStyle := fillStyle k;
       strokeStyle := strokeStyle k; lineWidth := v;
       textBaseline := textBaseline k;
       scaleX := scaleX k; scaleY := scaleY k; path := path k |}).

Definition set_textBaseline (v : Baseline) : Canvas -> Canvas :=
  with_ctx (fun k =>
    {| font := font k; fillStyle := fillStyle k;
       strokeStyle := strokeStyle k; lineWidth := lineWidth k;
       textBaseline := v;
       scaleX := scaleX k; scaleY := scaleY k; path := path k |}).

(** [ctx.scale(x, y)] multiplies into the current transform. *)
Definition scale (x y : Q) : Canvas -> Canvas :=
  with_ctx (fun k =>
    {| font := font k; fillStyle := fillStyle k;
       strokeStyle := strokeStyle k; lineWidth := lineWidth k;
       textBaseline := textBaseline k;
       scaleX := scaleX k * x; scaleY := scaleY k * y; path := path k |}).

Definition set_path (p : list PathCmd) : Canvas -> Canvas :=
  with_ctx (fun k =>
    {| font := font k; fillStyle := fillStyle k;
       strokeStyle := strokeStyle k; lineWidth := lineWidth k;
       textBaseline := textBaseline k;
       scaleX := scaleX k; scaleY := scaleY k; path := p |}).

Definition beginPath : Canvas -> Canvas := set_path [].

Definition moveTo (x y : Q) (c : Canvas) : Canvas :=
  set_path (path (ctx c) ++ [MoveTo x y]) c.

Definition lineTo (x y : Q) (c : Canvas) : Canvas :=
  set_path (path (ctx c) ++ [LineTo x y]) c.

Definition clearRect (x y w h : Q) : Canvas -> Canvas :=
  draw (fun k => ClearRect x y w h (scaleX k) (scaleY k)).

Definition fillText (s : jsstring) (x y : Q) : Canvas -> Canvas :=
  draw (fun k => FillText s x y (font k) (fillStyle k) (textBaseline k)
                          (scaleX k) (scaleY k)).

Definition stroke : Canvas -> Canvas :=
  draw (fun k => Stroke (path k) (strokeStyle k) (lineWidth k)
                        (scaleX k) (scaleY k)).

End Surface.

(** Two states of a canvas element that agree on everything but the
    context's state and the bitmap's contents. *)
Definition sameElement (c c' : Canvas) : Prop :=
  width c' = width c /\ height c' = height c /\
  style_width c' = style_width c /\ style_height c' = style_height c /\
  has_context c' = has_context c.

(** What the theorems observe of a bitmap: the text, x and y of the
    [fillText] calls composited on it, in order. *)
Definition placed (ops : list DrawOp) : list (jsstring * Q * Q) :=
  flat_map (fun op =>
    match op with
    | FillText s x y _ _ _ _ _ => [(s, x, y)]
    | _ => []
    end) ops.

(** Statements of the handler in sequence, left to right. *)
Definition seq_ {S : Type} (f g : S -> S) : S -> S := fun s => g (f s).
Notation "f ;; g" := (seq_ f g) (at level 61, left associativity).
Definition skip {S : Type} : S -> S := fun s => s.
Definition when {S : Type} (b : bool) (f : S -> S) : S -> S :=
  if b then f else skip.

(* ================================================================== *)
(** * The export handler *)
(* ================================================================== *)

Import Surface.

Definition fixedWidth : Q := 600.
Definition padding : Q := 1.
Definition availableWidth : Q := fixedWidth - padding * 2.

(** The font string composed from the style (twice in the handler). *)
Definition fontOf (st : TextStyle) : Font :=
  {| font_italic := italic st; font_bold := bold st;
     font_px := fontSize st;
     font_family := "system-ui, -apple-system, sans-serif" |}.

(** [text.split("\n").filter((line) => line.trim() !== "")] *)
Definition documentLines (t : jsstring) : list jsstring :=
  filter (fun line => truthy (trim line)) (split newline t).

Section Wrap.

(** The greedy wrap of the handler, over the width function and the
    available width it is run with. *)
Variable measure : jsstring -> Q.
Variable maxWidth : Q.

(** The body of [words.forEach]; the state is [wrappedLines] and
    [currentLine]. *)
Definition wrapWord (s : list jsstring * jsstring) (word : jsstring)
  : list jsstring * jsstring :=
  let '(wrappedLines, currentLine) := s in
  let testLine :=
    if truthy currentLine then currentLine ++ space :: word else word in
  let testWidth := measure testLine in
  if Qle_bool testWidth maxWidth then (wrappedLines, testLine)
  else if truthy currentLine then (wrappedLines ++ [currentLine], word)
  else (wrappedLines ++ [word], currentLine).

(** The body of [lines.forEach]. *)
Definition wrapLine (wrappedLines : list jsstring) (line : jsstring)
  : list jsstring :=
  if negb (truthy (trim line)) then wrappedLines
  else
    let words := split space line in
    let '(wrappedLines, currentLine) :=
      fold_left wrapWord words (wrappedLines, []) in
    if truthy currentLine then wrappedLines ++ [currentLine]
    else wrappedLines.

Definition wrapLines (lines : list jsstring) : list jsstring :=
  fold_left wrapLine lines [].

(** A line fits when it passes the width test of [wrapWord]; it is
    accepted when it fits or is one of the words [tokens] that the
    source lines split into. *)
Definition fits (line : jsstring) : Prop := measure line <= maxWidth.

Definition accepted (tokens : list jsstring) (line : jsstring) : Prop :=
  fits line \/ In line tokens.

End Wrap.

(** The x positions of the words of a justified line, as the design
    describes them and not as the handler computes them: the first word
    at [x], each next word after the previous word's width and one gap.
    [justify_loop] below relates the handler's loop to them. *)
Fixpoint positions (m : jsstring -> Q) (gap x : Q) (ws : list jsstring)
  : list Q :=
  match ws with
  | [] => []
  | w :: rest => x :: positions m gap (x + (m w + gap)) rest
  end.

(** Words paired with their x positions, on the line at [y]. *)
Definition placedAt (y : Q) (ws : list jsstring) (xs : list Q)
  : list (jsstring * Q * Q) :=
  map (fun p => (fst p, snd p, y)) (combine ws xs).

(** [wrappedLines.length * lineHeight - (lineHeight - style.fontSize)] *)
Definition lineHeightOf (st : TextStyle) : Q := fontSize st * 1.5.

Definition textHeightOf (st : TextStyle) (wrappedLines : list jsstring) : Q :=
  Qnat (length wrappedLines) * lineHeightOf st
  - (lineHeightOf st - fontSize st).

Section Handler.

(** The host: the width [ctx.measureText(s).width] reports under a
    font, and the PNG encoder behind [canvas.toBlob], which may give
    no data. *)
Variable Blob : Type.
Variable measureText : Font -> jsstring -> Q.
Variable toBlob : Canvas -> option Blob.

(** What the handler can see and touch besides the editor state: the
    canvas behind [canvasRef], [window.devicePixelRatio], and the
    files handed to the browser for saving. *)
Record World := mkWorld {
  canvasRef : option Canvas;
  devicePixelRatio : Q;
  saved : list (jsstring * Blob)
}.

(** [window.devicePixelRatio || 1]: a ratio of zero is falsy. *)
Definition deviceScale (w : World) : Q :=
  if Qeq_bool (devicePixelRatio w) 0 then 1 else devicePixelRatio w.

(** [ctx.measureText(s).width]: measured under the current font. *)
Definition measure (c : Canvas) (s : jsstring) : Q :=
  measureText (font (ctx c)) s.

Section Render.

Variable st : TextStyle.

(** The underline stroke, written out three times in the handler. *)
Definition strokeUnder (x y w : Q) : Canvas -> Canvas :=
  beginPath ;;
  moveTo x (y + fontSize st + 2) ;;
  lineTo (x + w) (y + fontSize st + 2) ;;
  set_strokeStyle (color st) ;;
  set_lineWidth 1 ;;
  stroke.

(** The body of the inner [words.forEach] of a justified line; the
    state is [currentX] and the canvas. *)
Definition justifyWord (y spaceWidth : Q) (nwords : nat)
           (word : jsstring) (wordIndex : nat) (s : Q * Canvas)
  : Q * Canvas :=
  let '(currentX, c) := s in
  let c := fillText word currentX y c in
  let c :=
    if underline st then
      let wordWidth := measure c word in
      strokeUnder currentX y wordWidth c
    else c in
  if (Z.of_nat wordIndex <? Z.of_nat nwords - 1)%Z
  then (currentX + (measure c word + spaceWidth), c)
  else (currentX, c).

(** The body of [wrappedLines.forEach]. *)
Definition drawLine (nlines : nat) (lineHeight : Q)
           (line : jsstring) (index : nat) (c : Canvas) : Canvas :=
  let y := padding + Qnat index * lineHeight in
  if Align_eqb (align st) Justify && truthy (trim line)
     && (Z.of_nat index <? Z.of_nat nlines - 1)%Z
  then
    let words := split_ws (trim line) in
    if (1 <? length words)%nat then
      let totalTextWidth :=
        fold_left (fun sum word => sum + measure c word) words 0 in
      let totalSpaceWidth := availableWidth - totalTextWidth in
      let spaceWidth :=
        totalSpaceWidth / (Qnat (length words) - 1) in
      snd (forEachi (justifyWord y spaceWidth (length words))
                    words (padding, c))
    else
      (fillText line padding y ;;
       when (underline st)
            (fun c => strokeUnder padding y (measure c line) c)) c
  else
    let textWidth := measure c line in
    let x :=
      if Align_eqb (align st) Center then (fixedWidth - textWidth) / 2
      else if Align_eqb (align st) Right
           then fixedWidth - textWidth - padding
           else padding in
    (fillText line x y ;;
     when (underline st) (strokeUnder x y textWidth)) c.

Definition drawLines (lineHeight : Q) (wrappedLines : list jsstring)
  : Canvas -> Canvas :=
  forEachi (drawLine (length wrappedLines) lineHeight) wrappedLines.

End Render.

(** From the height of the text to the last line drawn: size the
    canvas, scale and clear it, set the drawing state, draw the lines. *)
Definition paint (st : TextStyle) (dpr : Q) (wrappedLines : list jsstring)
  : Canvas -> Canvas :=
  let lineHeight := lineHeightOf st in
  let textHeight := textHeightOf st wrappedLines in
  let canvasWidth := fixedWidth * dpr in
  let canvasHeight := (textHeight + padding * 2) * dpr in
  set_width canvasWidth ;;
  set_height canvasHeight ;;
  set_style_width fixedWidth ;;
  set_style_height (textHeight + padding * 2) ;;
  scale dpr dpr ;;
  clearRect 0 0 fixedWidth (textHeight + padding * 2) ;;
  set_font (fontOf st) ;;
  set_fillStyle (color st) ;;
  set_textBaseline Top ;;
  drawLines st lineHeight wrappedLines.

(** The [toBlob] callback: save under the title, or the default name. *)
Definition fileName (title : jsstring) : jsstring :=
  if truthy title then title ++ lit ".png"
  else lit "text-editor-export.png".

Definition downloadAsPNG (e : Editor) (w : World) : World :=
  match canvasRef w with
  | None => w
  | Some canvas =>
    if negb (has_context canvas) then w
    else
      let dpr := deviceScale w in
      let st := style e in
      let canvas := set_font (fontOf st) canvas in
      let lines := documentLines (text e) in
      if (length lines =? 0)%nat then
        {| canvasRef := Some canvas;
           devicePixelRatio := devicePixelRatio w; saved := saved w |}
      else
        let wrappedLines :=
          wrapLines (measure canvas) availableWidth lines in
        let canvas := paint st dpr wrappedLines canvas in
        {| canvasRef := Some canvas;
           devicePixelRatio := devicePixelRatio w;
           saved :=
             match toBlob canvas with
             | Some blob => saved w ++ [(fileName (title e), blob)]
             | None => saved w
             end |}
  end.

(** The wrapped lines an export of [e] lays out. *)
Definition wrappedLinesOf (e : Editor) : list jsstring :=
  wrapLines (measureText (fontOf (style e))) availableWidth
            (documentLines (text e)).

End Handler.

(* ================================================================== *)
(** * The preview pane *)
(* ================================================================== *)

(** The object [getTextStyle] returns: the inline CSS of the preview.
    The size is the number of pixels of [`${style.fontSize}px`]. *)
Record PreviewStyle := mkPreviewStyle {
  fontWeight : string;
  fontStyle : string;
  textDecoration : string;
  css_fontSize : Q;
  css_color : jsstring;
  textAlign : Align;
  css_lineHeight : string;
  fontFamily : string
}.

Definition getTextStyle (st : TextStyle) : PreviewStyle :=
  {| fontWeight := if bold st then "bold" else "normal";
     fontStyle := if italic st then "italic" else "normal";
     textDecoration := if underline st then "underline" else "none";
     css_fontSize := fontSize st;
     css_color := color st;
     textAlign := align st;
     css_lineHeight := "1.5";
     fontFamily := "system-ui, -apple-system, sans-serif" |}.

(** U+00A0, what the preview shows for an empty line. *)
Definition nbsp : char := 160%N.

(** The text of the rows of the preview:
    [text.split("\n").map((line) => line || "\u00A0")]. *)
Definition previewRows (t : jsstring) : list jsstring :=
  map (fun line => if truthy line then line else [nbsp]) (split newline t).

(* ================================================================== *)
(** * What is observed of a bitmap and of a run of actions *)
(* ================================================================== *)

(** The text of a placed [fillText]. *)
Definition textOf (p : jsstring * Q * Q) : jsstring := fst (fst p).

(** The strokes composited on a bitmap, in order: path, colour, width. *)
Definition strokes (ops : list DrawOp) : list (list PathCmd * jsstring * Q) :=
  flat_map (fun op =>
    match op with
    | Stroke p s lw _ _ => [(p, s, lw)]
    | _ => []
    end) ops.

(** The stroke that underlines a text placed at [(x, y)] under the
    width function [m]: [fontSize + 2] below the top of the line, as
    wide as the text, in the colour of the style, one unit thick. *)
Definition underlineOf (st : TextStyle) (m : jsstring -> Q)
           (p : jsstring * Q * Q) : list PathCmd * jsstring * Q :=
  let '(s, x, y) := p in
  ([MoveTo x (y + fontSize st + 2); LineTo (x + m s) (y + fontSize st + 2)],
   color st, 1).

(** The operations a text placed at [(x, y)] stands for on the bitmap,
    under the drawing state [k] and the width function [m]: its
    [fillText], and its underline when the style asks for one. *)
Definition opsFor (st : TextStyle) (m : jsstring -> Q) (k : Context2D)
           (p : jsstring * Q * Q) : list DrawOp :=
  let '(s, x, y) := p in
  FillText s x y (font k) (fillStyle k) (textBaseline k)
           (scaleX k) (scaleY k)
  :: (if underline st then
        [Stroke [MoveTo x (y + fontSize st + 2);
                 LineTo (x + m s) (y + fontSize st + 2)]
                (color st) 1 (scaleX k) (scaleY k)]
      else []).

(** The x of a whole line of width [w] under an alignment: the three
    cases of the last branch of [drawLine]. *)
Definition alignX (a : Align) (w : Q) : Q :=
  match a with
  | Center => (fixedWidth - w) / 2
  | Right => fixedWidth - w - padding
  | _ => padding
  end.

(** The rows of an export that stretches no line: line [i] whole, at
    its aligned x and at [y = padding + i * lineHeight]. *)
Fixpoint rowsFrom (m : jsstring -> Q) (a : Align) (lh : Q) (i : nat)
         (lines : list jsstring) : list (jsstring * Q * Q) :=
  match lines with
  | [] => []
  | l :: rest =>
      (l, alignX a (m l), padding + Qnat i * lh)
      :: rowsFrom m a lh (S i) rest
  end.

(** The gap of a stretched line: the available width less the widths
    of the words, shared equally among the gaps between them. *)
Definition gapOf (m : jsstring -> Q) (ws : list jsstring) : Q :=
  (availableWidth - fold_left (fun sum word => sum + m word) ws 0)
  / (Qnat (length ws) - 1).

(** The texts of line [i] of a justified export when other lines follow
    it: its words from the padding on, a gap apart, when it has several
    words; the line whole at the padding when it has at most one. *)
Definition justifiedRow (m : jsstring -> Q) (lh : Q) (i : nat)
           (line : jsstring) : list (jsstring * Q * Q) :=
  let y := padding + Qnat i * lh in
  let ws := split_ws (trim line) in
  if (1 <? length ws)%nat
  then placedAt y ws (positions m (gapOf m ws) padding ws)
  else [(line, padding, y)].

(** The texts of the lines before the last, from line [i] on. *)
Fixpoint justifiedRows (m : jsstring -> Q) (lh : Q) (i : nat)
         (lines : list jsstring) : list (jsstring * Q * Q) :=
  match lines with
  | [] => []
  | l :: rest => justifiedRow m lh i l ++ justifiedRows m lh (S i) rest
  end.

(** How often the toggle button of [k] is clicked in a run of actions. *)
Fixpoint clicks (k : ToggleKey) (actions : list Action) : nat :=
  match actions with
  | [] => 0
  | ClickToggle k' :: rest =>
      (match k, k' with
       | key_bold, key_bold | key_italic, key_italic
       | key_underline, key_underline => 1
       | _, _ => 0
       end + clicks k rest)%nat
  | _ :: rest => clicks k rest
  end.

(** The flag of the style that the toggle button of [k] drives. *)
Definition flag (k : ToggleKey) (st : TextStyle) : bool :=
  match k with
  | key_bold => bold st
  | key_italic => italic st
  | key_underline => underline st
  end.

(** The font size is a whole number of pixels between 8 and 72. *)
Definition wholeSize (st : TextStyle) : Prop :=
  exists z : Z, fontSize st == inject_Z z /\ (8 <= z <= 72)%Z.

(** The shape of what the inner loop of the wrap holds and emits: no
    emitted line and no current line begins with a space, and an
    emitted line is empty only if the empty string does not fit. *)
Definition noLead (l : jsstring) : Prop := hd_error l <> Some space.

Definition wellShaped (measure : jsstring -> Q) (maxWidth : Q)
           (l : jsstring) : Prop :=
  noLead l /\ (measure [] <= maxWidth -> l <> []).

(** The part of the drawing state that text is drawn under. *)
Definition textState (k : Context2D) : Font * jsstring * Baseline * Q * Q :=
  (font k, fillStyle k, textBaseline k, scaleX k, scaleY k).

(** The piece that [split_ws_from] is reading, put in front of the
    pieces of the rest. *)
Definition glue (a : jsstring) (l : list jsstring) : list jsstring :=
  match l with
  | [] => [a]
  | h :: t => (a ++ h) :: t
  end.

(** The sum of the widths of words, as the handler takes it with
    [reduce] but from the right. *)
Definition sumWidths (m : jsstring -> Q) (ws : list jsstring) : Q :=
  fold_right (fun w acc => m w + acc) 0 ws.

(** The y of a placed text, and a placement to stand for none. *)
Definition yOf (p : jsstring * Q * Q) : Q := snd p.

Definition nowhere : jsstring * Q * Q := ([], 0, 0).

(* ================================================================== *)
(** * A concrete host, for running the handler *)
(* ================================================================== *)

Module Host.

(** Monospace metrics: every code unit advances 0.6 of the font size. *)
Definition mono (f : Font) (s : jsstring) : Q :=
  font_px f * (6 # 10) * Qnat (List.length s).

(** An encoder that never fails and returns the surface itself. *)
Definition snapshot (c : Canvas) : option Canvas := Some c.

(** The canvas element as the component mounts it:
    [<canvas width={800} height={600} />]. *)
Definition mounted : Canvas :=
  {| width := 800; height := 600;
     style_width := None; style_height := None;
     has_context := true; ctx := default_ctx; bitmap := [] |}.

Definition world_on (c : Canvas) (dpr : Q) : World Canvas :=
  {| canvasRef := Some c; devicePixelRatio := dpr; saved := [] |}.

Definition world (dpr : Q) : World Canvas := world_on mounted dpr.

Definition editor (t : string) (st : TextStyle) : Editor :=
  {| text := lit t; title := []; style := st |}.


(** A font size at which 598 px hold 20 monospace characters. *)
Definition big (a : Align) : TextStyle :=
  {| bold := false; italic := false; underline := false;
     fontSize := 48; color := lit "#737373"; align := a |}.

Definition export (t : string) (st : TextStyle) (dpr : Q) : World Canvas :=
  downloadAsPNG mono snapshot (editor t st) (world dpr).

(** The canvas as an earlier export at a scale of 2 has left it. *)
Definition used : Canvas :=
  paint mono (big Justify) 2 [lit "an older text"] mounted.

(** A [jsstring] of ASCII characters, back as a literal. *)
Definition show (s : jsstring) : string :=
  string_of_list_ascii (map ascii_of_N s).

(** The [fillText] calls on the canvas of a world, readably: the text
    with its x and y in lowest terms. *)
Definition view (w : World Canvas) : list (string * Q * Q) :=
  match canvasRef w with
  | Some c =>
      map (fun p => (show (fst (fst p)), Qred (snd (fst p)), Qred (snd p)))
          (placed (bitmap c))
  | None => []
  end.

(** The bitmap dimensions of the canvas of a world, in lowest terms. *)
Definition dimensions (w : World Canvas) : option (Q * Q) :=
  match canvasRef w with
  | Some c => Some (Qred (width c), Qred (height c))
  | None => None
  end.

End Host.

(* ================================================================== *)
(** * The style descriptor: range of the font size, frame of the mutators *)
(* ================================================================== *)

Unset Implicit Arguments.

Section StyleFacts.

Lemma clamp_in_range (x : Q) : 8 <= Qmax 8 (Qmin 72 x) <= 72.
Proof.
  split.
  - apply Q.le_max_l.
  - apply Q.max_lub.
    + discriminate.
    + apply Q.le_min_l.
Qed.

Lemma changeFontSize_ok (delta : Q) (prev : TextStyle) :
  fontSizeOk (changeFontSize delta prev).
Proof. unfold fontSizeOk, changeFontSize; simpl. apply clamp_in_range. Qed.

(** Every handler keeps the font size in range once it is. *)
Lemma act_keeps_fontSize (e : Editor) (a : Action) :
  fontSizeOk (style e) -> fontSizeOk (style (act e a)).
Proof.
  intros H; destruct a as [t|t|k| | |al|c|]; simpl; trivial.
  - destruct k; exact H.
  - apply changeFontSize_ok.
  - apply changeFontSize_ok.
Qed.

Lemma fold_act_keeps_fontSize (actions : list Action) :
  forall e, fontSizeOk (style e) ->
            fontSizeOk (style (fold_left act actions e)).
Proof.
  induction actions as [|a rest IH]; intros e H; simpl.
  - exact H.
  - apply IH, act_keeps_fontSize, H.
Qed.

End StyleFacts.

(** C9. The font size of the style descriptor is always within [8, 72]:
    the initial value is, the mutator [changeFontSize] clamps into the
    range from any previous style and for any delta, and the style
    reached by any sequence of user actions has its font size in range. *)
Theorem fontSize_always_in_range :
  (8 <= fontSize initialStyle <= 72) /\
  (forall (delta : Q) (prev : TextStyle),
      8 <= fontSize (changeFontSize delta prev) <= 72) /\
  (forall actions : list Action,
      8 <= fontSize (style (run actions)) <= 72).
Proof.
  split; [|split].
  - split; discriminate.
  - intros delta prev. apply changeFontSize_ok.
  - intros actions. apply fold_act_keeps_fontSize.
    split; discriminate.
Qed.

(** C10. Each style mutator changes only its own field: [toggleStyle]
    negates the named boolean and keeps the five other fields,
    [setAlignment] sets [align], [changeFontSize] changes [fontSize]
    and [changeColor] sets [color], each keeping all other fields. *)
Theorem mutators_change_only_their_field :
  forall prev : TextStyle,
    (forall k : ToggleKey,
        let s := toggleStyle k prev in
        bold s =
          (match k with key_bold => negb (bold prev)
                      | _ => bold prev end) /\
        italic s =
          (match k with key_italic => negb (italic prev)
                      | _ => italic prev end) /\
        underline s =
          (match k with key_underline => negb (underline prev)
                      | _ => underline prev end) /\
        fontSize s = fontSize prev /\ color s = color prev /\
        align s = align prev) /\
    (forall a : Align,
        let s := setAlignment a prev in
        align s = a /\
        bold s = bold prev /\ italic s = italic prev /\
        underline s = underline prev /\ fontSize s = fontSize prev /\
        color s = color prev) /\
    (forall delta : Q,
        let s := changeFontSize delta prev in
        fontSize s = Qmax 8 (Qmin 72 (fontSize prev + delta)) /\
        bold s = bold prev /\ italic s = italic prev /\
        underline s = underline prev /\ color s = color prev /\
        align s = align prev) /\
    (forall c : jsstring,
        let s := changeColor c prev in
        color s = c /\
        bold s = bold prev /\ italic s = italic prev /\
        underline s = underline prev /\ fontSize s = fontSize prev /\
        align s = align prev).
Proof.
  intros prev. repeat split; try reflexivity; destruct k; reflexivity.
Qed.

(* ================================================================== *)
(** * Splitting, trimming and words *)
(* ================================================================== *)

Section Strings.

Lemma split_by_not_nil (p : char -> bool) (s : jsstring) :
  split_by p s <> [].
Proof.
  destruct s as [|c r]; simpl; [discriminate|].
  destruct (p c); [discriminate|].
  destruct (split_by p r); discriminate.
Qed.

(** No piece of a split contains the separator. *)
Lemma split_by_pieces (p : char -> bool) (s : jsstring) :
  forall w, In w (split_by p s) -> forall c, In c w -> p c = false.
Proof.
  induction s as [|a r IH]; simpl; intros w Hw c Hc.
  - destruct Hw as [<-|[]]. destruct Hc.
  - destruct (p a) eqn:Ea.
    + destruct Hw as [<-|Hw]; [destruct Hc|]. eapply IH; eauto.
    + destruct (split_by p r) as [|h t] eqn:Er.
      * destruct Hw as [<-|[]]. destruct Hc as [<-|[]]. exact Ea.
      * destruct Hw as [<-|Hw].
        -- destruct Hc as [<-|Hc]; [exact Ea|].
           eapply IH; [left; reflexivity|exact Hc].
        -- eapply IH; [right; exact Hw|exact Hc].
Qed.

(** Splitting distributes over a separator in the middle. *)
Lemma split_by_app_sep (p : char -> bool) (a b : jsstring) (c : char) :
  p c = true ->
  split_by p (a ++ c :: b) = split_by p a ++ split_by p b.
Proof.
  intros Hc. induction a as [|x a IH]; simpl.
  - now rewrite Hc.
  - rewrite IH. destruct (p x); [reflexivity|].
    destruct (split_by p a) as [|h t] eqn:Ea; [|reflexivity].
    now apply split_by_not_nil in Ea.
Qed.

(** Splitting on a coarser separator set refines a split: the pieces
    for [p] are those of the [q]-pieces, in order. *)
Lemma split_by_refines (p q : char -> bool) :
  (forall c, q c = true -> p c = true) ->
  forall s, split_by p s = concat (map (split_by p) (split_by q s)).
Proof.
  intros Hqp. induction s as [|c r IH]; simpl.
  - reflexivity.
  - destruct (q c) eqn:Eq.
    + rewrite (Hqp c Eq). simpl. now rewrite IH.
    + destruct (split_by q r) as [|w ws] eqn:Er.
      * now apply split_by_not_nil in Er.
      * simpl in *. destruct (p c).
        -- now rewrite IH.
        -- rewrite IH.
           destruct (split_by p w) as [|h t] eqn:Ew; [|reflexivity].
           now apply split_by_not_nil in Ew.
Qed.


Lemma space_is_ws : is_ws space = true.
Proof. reflexivity. Qed.

Lemma newline_is_ws : is_ws newline = true.
Proof. reflexivity. Qed.

Lemma eqb_sep_is_ws (sep : char) :
  is_ws sep = true -> forall c, N.eqb sep c = true -> is_ws c = true.
Proof. intros H c E. apply N.eqb_eq in E. now subst. Qed.

Lemma words_nil : words [] = [].
Proof. reflexivity. Qed.

(** The words of two strings joined by a white-space character. *)
Lemma words_app_ws (a b : jsstring) (c : char) :
  is_ws c = true -> words (a ++ c :: b) = words a ++ words b.
Proof.
  intros Hc. unfold words.
  now rewrite split_by_app_sep, filter_app.
Qed.

Lemma filter_concat {A : Type} (f : A -> bool) (ls : list (list A)) :
  filter f (concat ls) = concat (map (filter f) ls).
Proof.
  induction ls as [|l ls IH]; simpl; [reflexivity|].
  now rewrite filter_app, IH.
Qed.

(** The words of a string are those of its pieces for any white-space
    separator, in order. *)
Lemma words_split (sep : char) (s : jsstring) :
  is_ws sep = true -> words s = flat_map words (split sep s).
Proof.
  intros Hsep. unfold words at 1, split.
  rewrite (split_by_refines is_ws (N.eqb sep) (eqb_sep_is_ws sep Hsep)).
  rewrite filter_concat, map_map, flat_map_concat_map. reflexivity.
Qed.

Lemma dropWhile_nil (p : char -> bool) (s : jsstring) :
  dropWhile p s = [] -> forallb p s = true.
Proof.
  induction s as [|c r IH]; simpl; [reflexivity|].
  destruct (p c); [exact IH|discriminate].
Qed.

Lemma dropWhile_head (p : char -> bool) (s : jsstring) :
  forallb p (dropWhile p s) = true -> dropWhile p s = [].
Proof.
  induction s as [|c r IH]; simpl; [reflexivity|].
  destruct (p c) eqn:E; [exact IH|].
  simpl. rewrite E. discriminate.
Qed.

Lemma forallb_rev {A : Type} (f : A -> bool) (l : list A) :
  forallb f (rev l) = forallb f l.
Proof.
  induction l as [|a l IH]; simpl; [reflexivity|].
  rewrite forallb_app, IH. simpl. rewrite andb_true_r. apply andb_comm.
Qed.

(** A line whose trim is empty is white space throughout. *)
Lemma trim_empty_blank (s : jsstring) :
  truthy (trim s) = false -> forallb is_ws s = true.
Proof.
  unfold trim. intros H.
  assert (E : rev (dropWhile is_ws (rev (dropWhile is_ws s))) = []).
  { destruct (rev _); [reflexivity|discriminate]. }
  apply (f_equal (@rev char)) in E. rewrite rev_involutive in E.
  simpl in E. apply dropWhile_nil in E. rewrite forallb_rev in E.
  apply dropWhile_head in E. now apply dropWhile_nil.
Qed.

Lemma blank_no_words (s : jsstring) :
  forallb is_ws s = true -> words s = [].
Proof.
  unfold words. induction s as [|c r IH]; simpl; [reflexivity|].
  intros H. apply andb_prop in H as [Hc Hr]. rewrite Hc. simpl.
  exact (IH Hr).
Qed.

(** The filter on blank lines drops no word. *)
Lemma words_documentLines (t : jsstring) :
  flat_map words (documentLines t) = words t.
Proof.
  rewrite (words_split newline t newline_is_ws).
  unfold documentLines.
  induction (split newline t) as [|l ls IH]; simpl; [reflexivity|].
  destruct (truthy (trim l)) eqn:E; simpl.
  - now rewrite IH.
  - rewrite IH.
    now rewrite (blank_no_words l (trim_empty_blank l E)).
Qed.

End Strings.

(* ================================================================== *)
(** * The greedy wrap *)
(* ================================================================== *)

Section WrapFacts.

Variable measure : jsstring -> Q.
Variable maxWidth : Q.

Local Abbreviation word_step := (wrapWord measure maxWidth).
Local Abbreviation line_step := (wrapLine measure maxWidth).
Local Abbreviation wrap := (wrapLines measure maxWidth).
Local Abbreviation ok := (accepted measure maxWidth).

Lemma flat_map_words_snoc (ls : list jsstring) (l : jsstring) :
  flat_map words (ls ++ [l]) = flat_map words ls ++ words l.
Proof. rewrite flat_map_app. simpl. now rewrite app_nil_r. Qed.

(** One step of the inner loop moves the word from the input to the
    lines, emitted or current. *)
Lemma wrapWord_words (s : list jsstring * jsstring) (word : jsstring) :
  flat_map words (fst (word_step s word) ++ [snd (word_step s word)])
  = flat_map words (fst s ++ [snd s]) ++ words word.
Proof.
  destruct s as [wl cur]. unfold wrapWord. simpl.
  destruct cur as [|c cur]; simpl truthy; cbv iota.
  - destruct (Qle_bool (measure word) maxWidth); simpl fst; simpl snd.
    + now rewrite !flat_map_words_snoc, words_nil, app_nil_r.
    + now rewrite !flat_map_words_snoc, words_nil, !app_nil_r.
  - destruct (Qle_bool _ maxWidth); simpl fst; simpl snd.
    + rewrite !flat_map_words_snoc.
      change (c :: cur ++ space :: word)
        with ((c :: cur) ++ space :: word).
      rewrite (words_app_ws (c :: cur) word space space_is_ws).
      now rewrite app_assoc.
    + now rewrite !flat_map_words_snoc.
Qed.

Lemma fold_wrapWord_words (ws : list jsstring) :
  forall s,
    let r := fold_left word_step ws s in
    flat_map words (fst r ++ [snd r])
    = flat_map words (fst s ++ [snd s]) ++ flat_map words ws.
Proof.
  induction ws as [|w ws IH]; intros s; simpl.
  - now rewrite app_nil_r.
  - rewrite IH, wrapWord_words. now rewrite app_assoc.
Qed.

Lemma wrapLine_words (wl : list jsstring) (line : jsstring) :
  flat_map words (line_step wl line) = flat_map words wl ++ words line.
Proof.
  unfold wrapLine.
  destruct (truthy (trim line)) eqn:E; simpl negb; cbv iota.
  - pose proof (fold_wrapWord_words (split space line) (wl, [])) as H.
    destruct (fold_left word_step (split space line) (wl, []))
      as [wl' cur] eqn:Ef.
    cbv zeta in H. cbn [fst snd] in H.
    rewrite (flat_map_words_snoc wl []) in H.
    rewrite words_nil, app_nil_r in H.
    rewrite <- (words_split space line space_is_ws) in H.
    destruct cur as [|c cur]; simpl truthy; cbv iota.
    + rewrite flat_map_words_snoc, words_nil, app_nil_r in H. exact H.
    + exact H.
  - now rewrite (blank_no_words line (trim_empty_blank line E)), app_nil_r.
Qed.

Lemma fold_wrapLine_words (lines : list jsstring) :
  forall wl,
    flat_map words (fold_left line_step lines wl)
    = flat_map words wl ++ flat_map words lines.
Proof.
  induction lines as [|l ls IH]; intros wl; simpl.
  - now rewrite app_nil_r.
  - rewrite IH, wrapLine_words. now rewrite app_assoc.
Qed.

(** ** The width bound *)






End WrapFacts.


(** C4. The words of the wrapped lines, taken line after line, are
    exactly the non-blank words of the document in their order: the
    wrap drops, repeats and reorders no word, for every document,
    measure function and width. *)
Theorem wrap_completeness :
  forall (measure : jsstring -> Q) (maxWidth : Q) (t : jsstring),
    flat_map words (wrapLines measure maxWidth (documentLines t)) = words t.
Proof.
  intros measure maxWidth t. unfold wrapLines.
  rewrite fold_wrapLine_words. simpl.
  apply words_documentLines.
Qed.

(* ================================================================== *)
(** * Placement of the lines *)
(* ================================================================== *)

Section RenderFacts.

Variable measureText : Font -> jsstring -> Q.
Variable st : TextStyle.

Lemma placed_snoc (ops : list DrawOp) (op : DrawOp) :
  placed (ops ++ [op]) = placed ops ++ placed [op].
Proof. unfold placed. now rewrite flat_map_app. Qed.

(** What a [fillText] leaves behind. *)
Lemma fillText_placed (s : jsstring) (x y : Q) (c : Canvas) :
  placed (bitmap (fillText s x y c)) = placed (bitmap c) ++ [(s, x, y)].
Proof. unfold fillText, draw. simpl. now rewrite placed_snoc. Qed.

Lemma fillText_ctx (s : jsstring) (x y : Q) (c : Canvas) :
  ctx (fillText s x y c) = ctx c.
Proof. reflexivity. Qed.

(** The underline stroke places no text and keeps the font. *)
Lemma strokeUnder_placed (x y w : Q) (c : Canvas) :
  placed (bitmap (strokeUnder st x y w c)) = placed (bitmap c).
Proof.
  unfold strokeUnder, seq_, stroke, draw. simpl.
  rewrite placed_snoc. simpl. now rewrite app_nil_r.
Qed.

Lemma strokeUnder_font (x y w : Q) (c : Canvas) :
  font (ctx (strokeUnder st x y w c)) = font (ctx c).
Proof. reflexivity. Qed.

(** One step of the inner loop of a justified line: the word is placed
    at [currentX], and [currentX] advances unless the word is the last. *)
Lemma justifyWord_spec (y gap : Q) (n : nat) (word : jsstring) (i : nat)
      (x : Q) (c : Canvas) :
  let r := justifyWord measureText st y gap n word i (x, c) in
  placed (bitmap (snd r)) = placed (bitmap c) ++ [(word, x, y)] /\
  font (ctx (snd r)) = font (ctx c) /\
  fst r = (if (Z.of_nat i <? Z.of_nat n - 1)%Z
           then x + (measureText (font (ctx c)) word + gap) else x).
Proof.
  unfold justifyWord, measure.
  destruct (underline st); destruct (Z.of_nat i <? Z.of_nat n - 1)%Z;
    cbn [fst snd];
    rewrite ?strokeUnder_placed, ?strokeUnder_font, ?fillText_placed,
            ?fillText_ctx;
    repeat split; reflexivity.
Qed.

(** The inner loop places the words at [positions]. *)
Lemma justify_loop (y gap : Q) (n : nat) (ws : list jsstring) :
  forall (i : nat) (x : Q) (c : Canvas),
    (i + List.length ws = n)%nat ->
    let r := forEachi_from (justifyWord measureText st y gap n) i ws (x, c) in
    placed (bitmap (snd r))
    = placed (bitmap c)
      ++ placedAt y ws (positions (measureText (font (ctx c))) gap x ws) /\
    font (ctx (snd r)) = font (ctx c).
Proof.
  induction ws as [|w rest IH]; intros i x c Hn; cbn [forEachi_from].
  - cbn. now rewrite app_nil_r.
  - destruct (justifyWord_spec y gap n w i x c) as (Hp & Hf & Hx).
    destruct (justifyWord measureText st y gap n w i (x, c)) as [x1 c1].
    cbn [fst snd] in Hp, Hf, Hx.
    destruct (IH (S i) x1 c1) as [IHp IHf].
    { cbn [List.length] in Hn. lia. }
    cbv zeta. split; [|now rewrite IHf].
    rewrite IHp, Hp, Hf, <- app_assoc. f_equal.
    cbn [positions placedAt combine map fst snd app]. f_equal.
    destruct rest as [|w2 rest2]; [reflexivity|].
    assert (E : (Z.of_nat i <? Z.of_nat n - 1)%Z = true).
    { apply Z.ltb_lt. cbn [List.length] in Hn. lia. }
    rewrite E in Hx. now rewrite Hx.
Qed.

End RenderFacts.

Section JustifyFacts.

Variable measureText : Font -> jsstring -> Q.
Variable st : TextStyle.

Lemma Qnat_S (n : nat) : Qnat (S n) == Qnat n + 1.
Proof.
  unfold Qnat. rewrite Nat2Z.inj_succ. unfold Z.succ.
  now rewrite inject_Z_plus.
Qed.

Lemma Qnat_pred_nonzero (n : nat) : (1 < n)%nat -> ~ Qnat n - 1 == 0.
Proof.
  intros Hn E. unfold Qnat in E.
  unfold Qeq, Qminus, Qplus, Qopp, inject_Z in E. simpl in E. lia.
Qed.

(** The last word of a justified run, by the sum the handler takes
    with [reduce]: [a] is the sum before the run. *)
Lemma positions_last (m : jsstring -> Q) (gap y : Q) (ws : list jsstring) :
  forall (x a : Q),
    ws <> [] ->
    exists (pre : list (jsstring * Q * Q)) (xl : Q),
      placedAt y ws (positions m gap x ws) = pre ++ [(last ws [], xl, y)] /\
      xl + m (last ws []) + a
      == x + fold_left (fun sum word => sum + m word) ws a
         + gap * (Qnat (List.length ws) - 1).
Proof.
  induction ws as [|w rest IH]; intros x a Hne; [contradiction|].
  destruct rest as [|w2 rest2].
  - exists [], x. split; [reflexivity|].
    cbn [fold_left last List.length]. unfold Qnat. simpl inject_Z. ring.
  - destruct (IH (x + (m w + gap)) (a + m w)) as (pre & xl & Hp & Hx);
      [discriminate|].
    exists ((w, x, y) :: pre), xl. split.
    + change (placedAt y (w :: w2 :: rest2)
                (positions m gap x (w :: w2 :: rest2)))
        with ((w, x, y) :: placedAt y (w2 :: rest2)
                (positions m gap (x + (m w + gap)) (w2 :: rest2))).
      rewrite Hp. reflexivity.
    + change (last (w :: w2 :: rest2) []) with (last (w2 :: rest2) []).
      change (fold_left (fun sum word => sum + m word) (w :: w2 :: rest2) a)
        with (fold_left (fun sum word => sum + m word) (w2 :: rest2)
                        (a + m w)).
      change (List.length (w :: w2 :: rest2))
        with (S (List.length (w2 :: rest2))).
      rewrite Qnat_S.
      set (F := fold_left _ _ _) in *. set (L := Qnat _) in *.
      set (ml := m (last _ _)) in *.
      transitivity
        ((xl + ml + (a + m w)) - (m w + gap) + gap).
      { ring. }
      rewrite Hx. ring.
Qed.

Lemma multiword_truthy (line : jsstring) :
  (1 < List.length (split_ws (trim line)))%nat -> truthy (trim line) = true.
Proof.
  destruct (trim line) as [|c r]; [|reflexivity].
  cbn. lia.
Qed.

(** A line drawn by the last branch of [drawLine]: whole, at [x]. *)
Lemma whole_line_placed (line : jsstring) (x y w : Q) (c : Canvas) :
  placed (bitmap ((fillText line x y ;;
                   when (underline st) (strokeUnder st x y w)) c))
  = placed (bitmap c) ++ [(line, x, y)].
Proof.
  unfold seq_, when, skip. destruct (underline st).
  - now rewrite strokeUnder_placed, fillText_placed.
  - apply fillText_placed.
Qed.

Lemma single_word_placed (line : jsstring) (x y : Q) (c : Canvas) :
  placed (bitmap ((fillText line x y ;;
                   when (underline st)
                     (fun c => strokeUnder st x y
                                 (measure measureText c line) c)) c))
  = placed (bitmap c) ++ [(line, x, y)].
Proof.
  unfold seq_, when, skip. destruct (underline st).
  - now rewrite strokeUnder_placed, fillText_placed.
  - apply fillText_placed.
Qed.

(** A line that is not to be stretched goes out whole at the padding
    when the alignment is [Justify]. *)
Lemma drawLine_justify_unstretched (n : nat) (lh : Q) (line : jsstring)
      (index : nat) (c : Canvas) :
  align st = Justify ->
  (n <= index + 1)%nat \/ (List.length (split_ws (trim line)) <= 1)%nat ->
  placed (bitmap (drawLine measureText st n lh line index c))
  = placed (bitmap c) ++ [(line, padding, padding + Qnat index * lh)].
Proof.
  intros Ha Hc. unfold drawLine. rewrite Ha. cbn [Align_eqb andb].
  destruct (truthy (trim line) && (Z.of_nat index <? Z.of_nat n - 1)%Z)
    eqn:Ec.
  - apply andb_prop in Ec as [_ Ei]. apply Z.ltb_lt in Ei.
    destruct Hc as [Hc|Hc]; [lia|].
    assert (E : (1 <? List.length (split_ws (trim line)))%nat = false).
    { apply Nat.ltb_ge. exact Hc. }
    rewrite E. apply single_word_placed.
  - apply whole_line_placed.
Qed.

(** A multi-word line that is not the last is placed word by word at
    [positions], from the padding, with the gap the handler computes. *)
Lemma drawLine_justify_stretched (n : nat) (lh : Q) (line : jsstring)
      (index : nat) (c : Canvas) :
  align st = Justify ->
  (index + 1 < n)%nat ->
  (1 < List.length (split_ws (trim line)))%nat ->
  let ws := split_ws (trim line) in
  let m := measureText (font (ctx c)) in
  let gap :=
    (availableWidth - fold_left (fun sum word => sum + m word) ws 0)
    / (Qnat (List.length ws) - 1) in
  placed (bitmap (drawLine measureText st n lh line index c))
  = placed (bitmap c)
    ++ placedAt (padding + Qnat index * lh) ws (positions m gap padding ws).
Proof.
  intros Ha Hi Hw. cbv zeta. unfold drawLine. rewrite Ha.
  cbn [Align_eqb andb]. rewrite (multiword_truthy line Hw).
  assert (Ei : (Z.of_nat index <? Z.of_nat n - 1)%Z = true).
  { apply Z.ltb_lt. lia. }
  rewrite Ei. cbn [andb].
  assert (Ew : (1 <? List.length (split_ws (trim line)))%nat = true).
  { apply Nat.ltb_lt. exact Hw. }
  rewrite Ew. unfold forEachi, measure.
  apply (justify_loop measureText st). reflexivity.
Qed.

End JustifyFacts.

(** C1 (as stated, refuted). Under the monospace host at 48 px, the
    document below wraps into two lines; the first is justified and its
    last word starts at x = 2419/5 with a width of 576/5, so the word
    ends at 599, while the available width less the padding is 597. *)
Lemma justify_full_span_counterexample :
  Host.view (Host.export "aaaa bbbb cccc dddd eeee" (Host.big Justify) 1)
  = [("aaaa", 1, 1); ("bbbb", 2429 # 15, 1); ("cccc", 4843 # 15, 1);
     ("dddd", 2419 # 5, 1); ("eeee", 1, 73)]%string
  /\ Host.mono (fontOf (Host.big Justify)) (lit "dddd") == 576 # 5
  /\ ~ (2419 # 5) + Host.mono (fontOf (Host.big Justify)) (lit "dddd")
       == availableWidth - padding.
Proof.
  split; [vm_compute; reflexivity|]. split; [reflexivity|].
  intros H. vm_compute in H. discriminate H.
Qed.

(** C1 (amended). On every justified, multi-word, non-final line the
    last word is placed at an x such that x plus the measured width of
    that word equals the available width plus the padding (599, which
    is also [fixedWidth - padding]): the words span from the left
    padding to the right padding.  The equality is that of the rational
    numbers of the model, which do not round; the handler adds in
    floating point, so there it is an equality within rounding
    tolerance, as the claim has it. *)
Theorem justify_full_span :
  forall (measureText : Font -> jsstring -> Q) (st : TextStyle)
         (n : nat) (lh : Q) (line : jsstring) (index : nat) (c : Canvas),
    align st = Justify ->
    (index + 1 < n)%nat ->
    (1 < List.length (split_ws (trim line)))%nat ->
    let ws := split_ws (trim line) in
    let m := measureText (font (ctx c)) in
    exists (pre : list (jsstring * Q * Q)) (x : Q),
      placed (bitmap (drawLine measureText st n lh line index c))
      = placed (bitmap c)
        ++ pre ++ [(last ws [], x, padding + Qnat index * lh)] /\
      x + m (last ws []) == availableWidth + padding /\
      x + m (last ws []) == fixedWidth - padding.
Proof.
  intros measureText st n lh line index c Ha Hi Hw ws m.
  pose proof (drawLine_justify_stretched measureText st n lh line index c
                Ha Hi Hw) as Hd.
  cbv zeta in Hd. fold ws m in Hd.
  set (gap := (availableWidth - fold_left (fun sum word => sum + m word) ws 0)
              / (Qnat (List.length ws) - 1)) in Hd.
  assert (Hne : ws <> []).
  { intros E. subst ws. rewrite E in Hw. cbn in Hw. lia. }
  destruct (positions_last m gap (padding + Qnat index * lh) ws padding 0 Hne)
    as (pre & x & Hp & Hx).
  exists pre, x. rewrite Hd, Hp. split; [reflexivity|].
  assert (Hg : gap * (Qnat (List.length ws) - 1)
               == availableWidth
                  - fold_left (fun sum word => sum + m word) ws 0).
  { unfold gap. rewrite Qmult_comm. apply Qmult_div_r.
    apply Qnat_pred_nonzero. exact Hw. }
  assert (E : x + m (last ws []) == availableWidth + padding).
  { rewrite <- (Qplus_0_r (x + m (last ws []))), Hx, Hg. ring. }
  split; [exact E|]. rewrite E. reflexivity.
Qed.

(** C2 (as stated, refuted). Under the monospace host at 48 px the line
    "hello world" measures 1584/5; it is placed at 1 when aligned left
    and at 1411/5 when aligned right, and the two offsets add up to
    [fixedWidth - measure], not to that less twice the padding. *)
Lemma left_right_sum_counterexample :
  Host.view (Host.export "hello world" (Host.big Left) 1)
  = [("hello world", 1, 1)]%string
  /\ Host.view (Host.export "hello world" (Host.big Right) 1)
     = [("hello world", 1411 # 5, 1)]%string
  /\ ~ 1 + (1411 # 5)
       == fixedWidth - Host.mono (fontOf (Host.big Left)) (lit "hello world")
          - 2 * padding.
Proof.
  split; [vm_compute; reflexivity|]. split; [vm_compute; reflexivity|].
  intros H. vm_compute in H. discriminate H.
Qed.

(** C2 (amended). For every line, the x it is placed at when the
    alignment is left and the x it is placed at when the alignment is
    right add up to [fixedWidth] less the measured width of the line. *)
Theorem left_right_offsets_sum :
  forall (measureText : Font -> jsstring -> Q) (st : TextStyle)
         (n : nat) (lh : Q) (line : jsstring) (index : nat) (c : Canvas),
    exists xl xr : Q,
      placed (bitmap (drawLine measureText (setAlignment Left st)
                               n lh line index c))
      = placed (bitmap c) ++ [(line, xl, padding + Qnat index * lh)] /\
      placed (bitmap (drawLine measureText (setAlignment Right st)
                               n lh line index c))
      = placed (bitmap c) ++ [(line, xr, padding + Qnat index * lh)] /\
      xl = padding /\
      xl + xr == fixedWidth - measureText (font (ctx c)) line.
Proof.
  intros measureText st n lh line index c.
  exists padding, (fixedWidth - measureText (font (ctx c)) line - padding).
  unfold drawLine. cbn [align setAlignment Align_eqb andb underline].
  unfold measure.
  rewrite !(whole_line_placed (setAlignment Left st)).
  split; [reflexivity|].
  pose proof (whole_line_placed (setAlignment Right st) line
                (fixedWidth - measureText (font (ctx c)) line - padding)
                (padding + Qnat index * lh)
                (measureText (font (ctx c)) line) c) as Hr.
  cbn [setAlignment underline] in Hr.
  split; [exact Hr|]. split; [reflexivity|]. ring.
Qed.

(* ================================================================== *)
(** * The export as a whole *)
(* ================================================================== *)

Section ExportFacts.

Variable Blob : Type.
Variable measureText : Font -> jsstring -> Q.
Variable toBlob : Canvas -> option Blob.

Lemma forEachi_from_inv {A S : Type} (P : S -> Prop)
      (f : A -> nat -> S -> S) :
  (forall x i s, P s -> P (f x i s)) ->
  forall xs i s, P s -> P (forEachi_from f i xs s).
Proof.
  intros Hf. induction xs as [|x xs IH]; intros i s Hs; simpl.
  - exact Hs.
  - apply IH, Hf, Hs.
Qed.

Lemma sameElement_refl (c : Canvas) : sameElement c c.
Proof. repeat split. Qed.

Lemma sameElement_trans (a b c : Canvas) :
  sameElement a b -> sameElement b c -> sameElement a c.
Proof.
  unfold sameElement.
  intros (H1 & H2 & H3 & H4 & H5) (K1 & K2 & K3 & K4 & K5).
  repeat split; congruence.
Qed.

Lemma with_ctx_same (f : Context2D -> Context2D) (c : Canvas) :
  sameElement c (with_ctx f c).
Proof. repeat split. Qed.

Lemma draw_same (op : Context2D -> DrawOp) (c : Canvas) :
  sameElement c (draw op c).
Proof. repeat split. Qed.

Lemma strokeUnder_same (st : TextStyle) (x y w : Q) (c : Canvas) :
  sameElement c (strokeUnder st x y w c).
Proof. repeat split. Qed.

Ltac same_after H := eapply sameElement_trans; [exact H | repeat split].

Lemma justifyWord_same (st : TextStyle) (y gap : Q) (n : nat)
      (c0 : Canvas) (word : jsstring) (i : nat) (s : Q * Canvas) :
  sameElement c0 (snd s) ->
  sameElement c0 (snd (justifyWord measureText st y gap n word i s)).
Proof.
  destruct s as [x c]. unfold justifyWord. intros H.
  destruct (underline st); destruct (Z.of_nat i <? Z.of_nat n - 1)%Z;
    cbn [snd] in *;
    same_after H.
Qed.

(** Drawing a line changes neither the dimensions nor the inline style
    of the canvas. *)
Lemma drawLine_same (st : TextStyle) (n : nat) (lh : Q) (c0 : Canvas)
      (line : jsstring) (index : nat) (c : Canvas) :
  sameElement c0 c ->
  sameElement c0 (drawLine measureText st n lh line index c).
Proof.
  intros H. unfold drawLine.
  destruct (Align_eqb (align st) Justify && truthy (trim line)
            && (Z.of_nat index <? Z.of_nat n - 1)%Z).
  - destruct (1 <? List.length (split_ws (trim line)))%nat.
    + unfold forEachi.
      apply (forEachi_from_inv (fun s => sameElement c0 (snd s))).
      * intros x i s Hs. apply justifyWord_same, Hs.
      * exact H.
    + unfold seq_, when, skip.
      destruct (underline st);
        same_after H.
  - unfold seq_, when, skip.
    destruct (underline st);
      same_after H.
Qed.

Lemma drawLines_same (st : TextStyle) (lh : Q) (wrapped : list jsstring)
      (c : Canvas) :
  sameElement c (drawLines measureText st lh wrapped c).
Proof.
  unfold drawLines, forEachi.
  apply (forEachi_from_inv (sameElement c)).
  - intros x i s Hs. apply drawLine_same, Hs.
  - apply sameElement_refl.
Qed.






End ExportFacts.

Section HandlerFacts.

Variable Blob : Type.
Variable measureText : Font -> jsstring -> Q.
Variable toBlob : Canvas -> option Blob.

(** The canvas after [paint] does not depend on the state the canvas
    was in before: setting the dimensions resets it. *)
Lemma paint_forgets (st : TextStyle) (dpr : Q) (wrapped : list jsstring)
      (c1 c2 : Canvas) :
  has_context c1 = has_context c2 ->
  paint measureText st dpr wrapped c1 = paint measureText st dpr wrapped c2.
Proof.
  intros H. unfold paint, seq_.
  do 6 f_equal.
  unfold set_style_height, set_style_width, set_height, set_width. simpl.
  now rewrite H.
Qed.





(** [paint] keeps the context of the canvas available. *)
Lemma paint_same (st : TextStyle) (dpr : Q) (wrapped : list jsstring)
      (c : Canvas) :
  has_context (paint measureText st dpr wrapped c) = has_context c /\
  style_width (paint measureText st dpr wrapped c) = Some fixedWidth.
Proof.
  unfold paint, seq_.
  match goal with
  | |- has_context (drawLines _ _ _ _ ?c0) = _ /\ _ =>
      destruct (drawLines_same measureText st (lineHeightOf st) wrapped c0)
        as (_ & _ & Hsw & _ & Hk)
  end.
  rewrite Hk, Hsw. split; reflexivity.
Qed.

(** The handler on a mounted canvas and a document that is not blank. *)
Lemma export_runs (e : Editor) (w : World Blob) (c : Canvas) :
  canvasRef w = Some c -> has_context c = true ->
  documentLines (text e) <> [] ->
  downloadAsPNG measureText toBlob e w
  = let canvas :=
      paint measureText (style e) (deviceScale w)
            (wrappedLinesOf measureText e)
            (set_font (fontOf (style e)) c) in
    {| canvasRef := Some canvas;
       devicePixelRatio := devicePixelRatio w;
       saved := match toBlob canvas with
                | Some blob => saved w ++ [(fileName (title e), blob)]
                | None => saved w
                end |}.
Proof.
  intros Hc Hk Hd. unfold downloadAsPNG. rewrite Hc, Hk. cbn [negb].
  destruct (documentLines (text e)) as [|l ls] eqn:E; [contradiction|].
  cbn [List.length Nat.eqb]. unfold wrappedLinesOf. rewrite E.
  reflexivity.
Qed.

(** The handler on a mounted canvas and a blank document. *)
Lemma export_blank (e : Editor) (w : World Blob) (c : Canvas) :
  canvasRef w = Some c -> has_context c = true ->
  documentLines (text e) = [] ->
  downloadAsPNG measureText toBlob e w
  = {| canvasRef := Some (set_font (fontOf (style e)) c);
       devicePixelRatio := devicePixelRatio w;
       saved := saved w |}.
Proof.
  intros Hc Hk Hd. unfold downloadAsPNG. rewrite Hc, Hk, Hd. reflexivity.
Qed.

End HandlerFacts.

(** C6. When no line of the document is left after splitting at
    newlines and dropping the lines that trim to nothing, the export
    returns without saving a file and leaves the surface as it was: the
    dimensions, the inline style and the contents of the bitmap are
    unchanged (at most the font of the context has been set). The
    handler is a total function: there is no error to raise. *)
Theorem empty_document_is_noop :
  forall (Blob : Type) (measureText : Font -> jsstring -> Q)
         (toBlob : Canvas -> option Blob) (e : Editor) (w : World Blob),
    documentLines (text e) = [] ->
    let w' := downloadAsPNG measureText toBlob e w in
    saved w' = saved w /\
    devicePixelRatio w' = devicePixelRatio w /\
    match canvasRef w with
    | None => canvasRef w' = None
    | Some c =>
        exists c' : Canvas,
          canvasRef w' = Some c' /\
          width c' = width c /\ height c' = height c /\
          style_width c' = style_width c /\
          style_height c' = style_height c /\
          bitmap c' = bitmap c /\
          (c' = c \/ c' = set_font (fontOf (style e)) c)
    end.
Proof.
  intros Blob measureText toBlob e w Hd w'. subst w'.
  destruct (canvasRef w) as [c|] eqn:Hc.
  - destruct (has_context c) eqn:Hk.
    + rewrite (export_blank Blob measureText toBlob e w c Hc Hk Hd).
      cbn [saved devicePixelRatio canvasRef].
      split; [reflexivity|]. split; [reflexivity|].
      exists (set_font (fontOf (style e)) c).
      repeat split; try reflexivity. now right.
    + unfold downloadAsPNG. rewrite Hc, Hk. cbn [negb].
      split; [reflexivity|]. split; [reflexivity|].
      exists c. rewrite Hc. repeat split; try reflexivity. now left.
  - unfold downloadAsPNG. rewrite Hc. repeat split. exact Hc.
Qed.



(** C8 (as stated, refuted). The same document, style, title and
    measure function, exported at a device pixel ratio of 1 and of 2,
    give surfaces of different dimensions: 600 x 50 and 1200 x 100. *)
Lemma export_depends_on_device_scale :
  Host.dimensions (Host.export "hello world" (Host.big Left) 1)
  = Some (600, 50)
  /\ Host.dimensions (Host.export "hello world" (Host.big Left) 2)
     = Some (1200, 100)
  /\ Host.dimensions (Host.export "hello world" (Host.big Left) 1)
     <> Host.dimensions (Host.export "hello world" (Host.big Left) 2).
Proof.
  split; [vm_compute; reflexivity|]. split; [vm_compute; reflexivity|].
  vm_compute. discriminate.
Qed.

(** C8 (amended). The export is a function of the document, the style,
    the title, the measure function, the encoder and the device pixel
    ratio, and of nothing else: two invocations that agree on these, on
    two mounted canvases in whatever state, wrap the document into the
    same lines; if the document is not blank they leave the very same
    canvas (dimensions, inline style, drawing state and the sequence of
    draw operations with their positions, strings, fonts and colours)
    and save the same file; if it is blank both save nothing and draw
    nothing. *)
Theorem export_deterministic :
  forall (Blob : Type) (measureText : Font -> jsstring -> Q)
         (toBlob : Canvas -> option Blob) (e : Editor)
         (w1 w2 : World Blob) (c1 c2 : Canvas),
    canvasRef w1 = Some c1 -> canvasRef w2 = Some c2 ->
    has_context c1 = true -> has_context c2 = true ->
    devicePixelRatio w1 = devicePixelRatio w2 ->
    let r1 := downloadAsPNG measureText toBlob e w1 in
    let r2 := downloadAsPNG measureText toBlob e w2 in
    let wrap c :=
      wrapLines (measure measureText (set_font (fontOf (style e)) c))
                availableWidth (documentLines (text e)) in
    wrap c1 = wrap c2 /\
    (documentLines (text e) <> [] ->
       exists (c' : Canvas) (files : list (jsstring * Blob)),
         canvasRef r1 = Some c' /\ canvasRef r2 = Some c' /\
         saved r1 = saved w1 ++ files /\ saved r2 = saved w2 ++ files) /\
    (documentLines (text e) = [] ->
       saved r1 = saved w1 /\ saved r2 = saved w2 /\
       option_map bitmap (canvasRef r1) = Some (bitmap c1) /\
       option_map bitmap (canvasRef r2) = Some (bitmap c2)).
Proof.
  intros Blob measureText toBlob e w1 w2 c1 c2 H1 H2 K1 K2 Hd r1 r2 wrap.
  split; [reflexivity|]. split.
  - intros Hne. subst r1 r2.
    rewrite (export_runs Blob measureText toBlob e w1 c1 H1 K1 Hne).
    rewrite (export_runs Blob measureText toBlob e w2 c2 H2 K2 Hne).
    cbv zeta. cbn [canvasRef saved].
    assert (Es : deviceScale w1 = deviceScale w2).
    { unfold deviceScale. now rewrite Hd. }
    rewrite Es.
    rewrite (paint_forgets measureText (style e) (deviceScale w2)
               (wrappedLinesOf measureText e)
               (set_font (fontOf (style e)) c1)
               (set_font (fontOf (style e)) c2))
      by (cbn; congruence).
    set (c' := paint _ _ _ _ _).
    exists c'.
    destruct (toBlob c') as [blob|].
    + exists [(fileName (title e), blob)]. repeat split.
    + exists []. rewrite !app_nil_r. repeat split.
  - intros He. subst r1 r2.
    rewrite (export_blank Blob measureText toBlob e w1 c1 H1 K1 He).
    rewrite (export_blank Blob measureText toBlob e w2 c2 H2 K2 He).
    repeat split.
Qed.

(* ================================================================== *)
(** * The theorems at concrete inputs *)
(* ================================================================== *)

(** The justified first line of a two-line document, 48 px monospace:
    its last word ends at the right padding. *)
Lemma justify_full_span_witness :
  let line := lit "aaaa bbbb cccc dddd" in
  let st := Host.big Justify in
  align st = Justify /\
  (0 + 1 < 2)%nat /\
  (1 < List.length (split_ws (trim line)))%nat /\
  exists (pre : list (jsstring * Q * Q)) (x : Q),
    placed (bitmap (drawLine Host.mono st 2 72 line 0 Host.mounted))
    = placed (bitmap Host.mounted)
      ++ pre ++ [(last (split_ws (trim line)) [], x, padding + Qnat 0 * 72)] /\
    x + Host.mono (font (ctx Host.mounted)) (last (split_ws (trim line)) [])
    == availableWidth + padding /\
    x + Host.mono (font (ctx Host.mounted)) (last (split_ws (trim line)) [])
    == fixedWidth - padding.
Proof.
  intros line st.
  assert (H1 : align st = Justify) by reflexivity.
  assert (H2 : (0 + 1 < 2)%nat) by (vm_compute; repeat constructor).
  assert (H3 : (1 < List.length (split_ws (trim line)))%nat)
    by (vm_compute; repeat constructor).
  exact (conj H1 (conj H2 (conj H3
           (justify_full_span Host.mono st 2 72 line 0 Host.mounted
                              H1 H2 H3)))).
Defined.


(** Three blank lines: nothing is saved and the mounted canvas keeps
    its 800 x 600 bitmap. *)
Lemma empty_document_is_noop_witness :
  let e := Host.editor "


" (Host.big Justify) in
  let w := Host.world 2 in
  documentLines (text e) = [] /\
  saved (downloadAsPNG Host.mono Host.snapshot e w) = [] /\
  Host.dimensions (downloadAsPNG Host.mono Host.snapshot e w)
  = Some (800, 600).
Proof.
  intros e w.
  assert (H : documentLines (text e) = []) by reflexivity.
  split; [exact H|].
  split.
  - exact (proj1 (empty_document_is_noop Canvas Host.mono Host.snapshot
                    e w H)).
  - vm_compute. reflexivity.
Defined.


(** The same export on the canvas as mounted and on a canvas an earlier
    export has painted: the same canvas and the same file come out. *)
Lemma export_deterministic_witness :
  let e := Host.editor "hello world" (Host.big Center) in
  let w1 := Host.world_on Host.mounted 1 in
  let w2 := Host.world_on Host.used 1 in
  let r1 := downloadAsPNG Host.mono Host.snapshot e w1 in
  let r2 := downloadAsPNG Host.mono Host.snapshot e w2 in
  canvasRef w1 = Some Host.mounted /\ canvasRef w2 = Some Host.used /\
  has_context Host.mounted = true /\ has_context Host.used = true /\
  devicePixelRatio w1 = devicePixelRatio w2 /\
  documentLines (text e) <> [] /\
  bitmap Host.used <> bitmap Host.mounted /\
  exists (c' : Canvas) (files : list (jsstring * Canvas)),
    canvasRef r1 = Some c' /\ canvasRef r2 = Some c' /\
    saved r1 = saved w1 ++ files /\ saved r2 = saved w2 ++ files.
Proof.
  intros e w1 w2 r1 r2.
  assert (H1 : canvasRef w1 = Some Host.mounted) by reflexivity.
  assert (H2 : canvasRef w2 = Some Host.used) by reflexivity.
  assert (K1 : has_context Host.mounted = true) by reflexivity.
  assert (K2 : has_context Host.used = true) by reflexivity.
  assert (Hd : devicePixelRatio w1 = devicePixelRatio w2) by reflexivity.
  assert (Hne : documentLines (text e) <> []) by (vm_compute; discriminate).
  split; [exact H1|]. split; [exact H2|]. split; [exact K1|].
  split; [exact K2|]. split; [exact Hd|]. split; [exact Hne|].
  split; [vm_compute; discriminate|].
  exact (proj1 (proj2
           (export_deterministic Canvas Host.mono Host.snapshot e w1 w2
              Host.mounted Host.used H1 H2 K1 K2 Hd)) Hne).
Defined.

(* ================================================================== *)
(** * Further properties: the style and the toolbar *)
(* ================================================================== *)

(** X1. The mutators compose as independent fields do: toggling the
    same flag twice restores the style, two toggles commute, a later
    alignment or colour replaces an earlier one, and mutators of
    different fields commute. *)
Theorem mutators_compose :
  forall (s : TextStyle) (k k' : ToggleKey) (a a' : Align)
         (c c' : jsstring) (d : Q),
    toggleStyle k (toggleStyle k s) = s /\
    toggleStyle k (toggleStyle k' s) = toggleStyle k' (toggleStyle k s) /\
    setAlignment a (setAlignment a' s) = setAlignment a s /\
    changeColor c (changeColor c' s) = changeColor c s /\
    toggleStyle k (setAlignment a s) = setAlignment a (toggleStyle k s) /\
    toggleStyle k (changeColor c s) = changeColor c (toggleStyle k s) /\
    toggleStyle k (changeFontSize d s) = changeFontSize d (toggleStyle k s) /\
    setAlignment a (changeColor c s) = changeColor c (setAlignment a s) /\
    setAlignment a (changeFontSize d s)
    = changeFontSize d (setAlignment a s) /\
    changeColor c (changeFontSize d s) = changeFontSize d (changeColor c s).
Proof.
  intros [b i u f col al] k k' a a' c c' d.
  destruct k, k'; cbn; rewrite ?negb_involutive; repeat split.
Qed.

Lemma flag_after_act (k : ToggleKey) (e : Editor) (a : Action) :
  flag k (style (act e a))
  = xorb (flag k (style e)) (Nat.odd (clicks k [a])).
Proof.
  destruct a as [t|t|k'| | |al|c|]; cbn [clicks act withStyle style];
    try (cbn; now rewrite xorb_false_r).
  destruct k, k'; cbn; try now rewrite xorb_false_r.
  all: now destruct (_ (style e)).
Qed.

Lemma clicks_cons (k : ToggleKey) (a : Action) (rest : list Action) :
  clicks k (a :: rest) = (clicks k [a] + clicks k rest)%nat.
Proof.
  destruct a; cbn [clicks]; try reflexivity. now rewrite Nat.add_0_r.
Qed.

Lemma flag_after_run (k : ToggleKey) (actions : list Action) :
  forall e : Editor,
    flag k (style (fold_left act actions e))
    = xorb (flag k (style e)) (Nat.odd (clicks k actions)).
Proof.
  induction actions as [|a rest IH]; intros e.
  - cbn. now rewrite xorb_false_r.
  - cbn [fold_left]. rewrite IH, flag_after_act, (clicks_cons k a rest).
    rewrite Nat.odd_add, xorb_assoc. reflexivity.
Qed.

(** X2. After any run of user actions each of bold, italic and
    underline is set exactly when its button has been clicked an odd
    number of times: no other action touches the flag. *)
Theorem flag_is_click_parity :
  forall (k : ToggleKey) (actions : list Action),
    flag k (style (run actions)) = Nat.odd (clicks k actions).
Proof.
  intros k actions. unfold run. rewrite flag_after_run.
  destruct k; reflexivity.
Qed.

(** The clamp of an integer is the integer clamp. *)
Lemma clamp_integer (x : Q) (v : Z) :
  x == inject_Z v ->
  Qmax 8 (Qmin 72 x) == inject_Z (Z.max 8 (Z.min 72 v)).
Proof.
  intros H.
  assert (Hle : forall a b : Z, (a <= b)%Z -> inject_Z a <= inject_Z b)
    by (intros a b Hab; rewrite Zle_Qle in Hab; exact Hab).
  assert (Hlt : forall a b : Z, (a < b)%Z -> inject_Z a < inject_Z b)
    by (intros a b Hab; rewrite Zlt_Qlt in Hab; exact Hab).
  destruct (Q.min_spec 72 x) as [[A1 E1]|[A1 E1]];
    destruct (Q.max_spec 8 (Qmin 72 x)) as [[A2 E2]|[A2 E2]];
    rewrite E2; rewrite ?E1 in *; clear E2;
    destruct (Z.min_spec 72 v) as [[B1 F1]|[B1 F1]];
    destruct (Z.max_spec 8 (Z.min 72 v)) as [[B2 F2]|[B2 F2]];
    rewrite F2; rewrite ?F1 in *; clear F2;
    try (apply Hle in B1); try (apply Hlt in B1);
    try (apply Hle in B2); try (apply Hlt in B2);
    change (inject_Z 72) with 72 in *; change (inject_Z 8) with 8 in *;
    lra.
Qed.

Lemma act_keeps_wholeSize (e : Editor) (a : Action) :
  wholeSize (style e) -> wholeSize (style (act e a)).
Proof.
  intros (z & Hz & Hr).
  assert (Hstep : forall d : Z,
             wholeSize (changeFontSize (inject_Z d) (style e))).
  { intros d. exists (Z.max 8 (Z.min 72 (z + d))). split; [|lia].
    cbn [changeFontSize fontSize]. apply clamp_integer.
    rewrite Hz, inject_Z_plus. reflexivity. }
  destruct a as [t|t|k| | |al|c|]; cbn [act withStyle style];
    try (exists z; now split).
  - destruct k; exists z; now split.
  - exact (Hstep (-1)%Z).
  - exact (Hstep 1%Z).
Qed.

(** X3. The font size reached by any run of user actions is a whole
    number of pixels between 8 and 72: the size starts at 11 and the
    two buttons move it by one, clamped. *)
Theorem fontSize_is_whole :
  forall actions : list Action,
    exists z : Z,
      fontSize (style (run actions)) == inject_Z z /\ (8 <= z <= 72)%Z.
Proof.
  intros actions. unfold run.
  assert (H : wholeSize (style initialEditor)).
  { exists 11%Z. split; [reflexivity|lia]. }
  revert H. generalize initialEditor.
  induction actions as [|a rest IH]; intros e H; cbn [fold_left].
  - exact H.
  - apply IH, act_keeps_wholeSize, H.
Qed.

Lemma clamp_mid (x : Q) : 8 <= x -> x <= 72 -> Qmax 8 (Qmin 72 x) == x.
Proof.
  intros H1 H2. rewrite (Q.min_r 72 x H2). now apply Q.max_r.
Qed.

Lemma clamp_high (x : Q) : 72 <= x -> Qmax 8 (Qmin 72 x) == 72.
Proof.
  intros H. rewrite (Q.min_l 72 x H). apply Q.max_r. discriminate.
Qed.

Lemma clamp_low (x : Q) : x <= 8 -> Qmax 8 (Qmin 72 x) == 8.
Proof.
  intros H. apply Q.max_l. rewrite Q.min_r; [exact H|lra].
Qed.

(** X4. The two font-size buttons saturate and otherwise undo each
    other: at 72 or above a step up gives 72, at 8 or below a step
    down gives 8, between 8 and 71 a step up adds one and a step down
    after it restores the size, and between 9 and 72 a step down
    subtracts one and a step up after it restores the size. *)
Theorem fontSize_steps :
  forall prev : TextStyle,
    let f := fontSize prev in
    let up := changeFontSize 1 in
    let down := changeFontSize (-1) in
    (72 <= f -> fontSize (up prev) == 72) /\
    (f <= 8 -> fontSize (down prev) == 8) /\
    (8 <= f -> f <= 71 ->
       fontSize (up prev) == f + 1 /\ fontSize (down (up prev)) == f) /\
    (9 <= f -> f <= 72 ->
       fontSize (down prev) == f - 1 /\ fontSize (up (down prev)) == f).
Proof.
  intros prev f up down. subst up down.
  cbn [changeFontSize fontSize]. fold f.
  split; [|split; [|split]].
  - intros H. apply clamp_high. lra.
  - intros H. apply clamp_low. lra.
  - intros H1 H2.
    assert (E : Qmax 8 (Qmin 72 (f + 1)) == f + 1)
      by (apply clamp_mid; lra).
    split; [exact E|].
    rewrite clamp_mid; lra.
  - intros H1 H2.
    assert (E : Qmax 8 (Qmin 72 (f + -1)) == f - 1)
      by (rewrite clamp_mid; lra).
    split; [exact E|].
    rewrite clamp_mid; lra.
Qed.

(** The buttons on the initial style: two steps up from 11 and one
    down. *)
Lemma fontSize_steps_witness :
  8 <= fontSize initialStyle /\ fontSize initialStyle <= 71 /\
  fontSize (changeFontSize 1 initialStyle) == fontSize initialStyle + 1 /\
  fontSize (changeFontSize (-1) (changeFontSize 1 initialStyle))
  == fontSize initialStyle.
Proof.
  assert (H1 : 8 <= fontSize initialStyle) by discriminate.
  assert (H2 : fontSize initialStyle <= 71) by discriminate.
  exact (conj H1 (conj H2
           (proj1 (proj2 (proj2 (fontSize_steps initialStyle))) H1 H2))).
Defined.

(** X5. The preview shows every style change: two styles with the same
    preview CSS are the same style; and the preview agrees with the
    font of the export on family, size, weight and slant. *)
Theorem preview_reflects_style :
  (forall s1 s2 : TextStyle, getTextStyle s1 = getTextStyle s2 -> s1 = s2) /\
  (forall st : TextStyle,
      fontFamily (getTextStyle st) = font_family (fontOf st) /\
      css_fontSize (getTextStyle st) = font_px (fontOf st) /\
      (fontWeight (getTextStyle st) = "bold"%string
       <-> font_bold (fontOf st) = true) /\
      (fontStyle (getTextStyle st) = "italic"%string
       <-> font_italic (fontOf st) = true)).
Proof.
  split.
  - intros [b1 i1 u1 f1 c1 a1] [b2 i2 u2 f2 c2 a2] H.
    unfold getTextStyle in H. cbn in H.
    injection H as Hb Hi Hu Hf Hc Ha. subst.
    destruct b1, b2; try discriminate Hb;
      destruct i1, i2; try discriminate Hi;
      destruct u1, u2; try discriminate Hu; reflexivity.
  - intros st. cbn. repeat split; try reflexivity;
      destruct (bold st), (italic st); intros; congruence.
Qed.

(* ================================================================== *)
(** * Further properties: the saved file and the preview *)
(* ================================================================== *)

(** X6. The name of the saved file is never empty and always ends in
    [.png]; titles that are not empty give different names when they
    differ; the empty title gives the default name, which the title
    [text-editor-export] gives too. *)
Theorem fileName_shape :
  (forall t : jsstring,
      exists stem : jsstring,
        stem <> [] /\ fileName t = stem ++ lit ".png") /\
  (forall t1 t2 : jsstring,
      t1 <> [] -> t2 <> [] -> fileName t1 = fileName t2 -> t1 = t2) /\
  fileName [] = lit "text-editor-export.png" /\
  fileName (lit "text-editor-export") = fileName [].
Proof.
  split; [|split; [|split; reflexivity]].
  - intros [|c t].
    + exists (lit "text-editor-export"). split; [discriminate|reflexivity].
    + exists (c :: t). split; [discriminate|reflexivity].
  - intros [|c1 t1] [|c2 t2] H1 H2 H; try contradiction.
    unfold fileName in H. cbn [truthy] in H.
    now apply app_inv_tail in H.
Qed.

(** X7. An export never touches the files saved before and saves at
    most one more: either nothing is added, or exactly one file, named
    after the title, that is the encoding of the canvas the export
    leaves behind. Without a canvas or without a 2D context the world
    is left exactly as it was; when the encoder gives no data nothing
    is saved; and whenever a file is added the document has a line
    that is not blank. The device pixel ratio is only read. *)
Theorem export_saves_at_most_one_file :
  forall (Blob : Type) (measureText : Font -> jsstring -> Q)
         (toBlob : Canvas -> option Blob) (e : Editor) (w : World Blob),
    let w' := downloadAsPNG measureText toBlob e w in
    devicePixelRatio w' = devicePixelRatio w /\
    (saved w' = saved w \/
     exists (c' : Canvas) (blob : Blob),
       canvasRef w' = Some c' /\ toBlob c' = Some blob /\
       documentLines (text e) <> [] /\
       saved w' = saved w ++ [(fileName (title e), blob)]) /\
    (canvasRef w = None -> w' = w) /\
    (forall c : Canvas,
        canvasRef w = Some c -> has_context c = false -> w' = w) /\
    (forall c' : Canvas,
        canvasRef w' = Some c' -> toBlob c' = None -> saved w' = saved w).
Proof.
  intros Blob measureText toBlob e w w'. subst w'.
  destruct (canvasRef w) as [c|] eqn:Hc.
  2:{ unfold downloadAsPNG. rewrite Hc.
      repeat split; auto; intros; try discriminate; congruence. }
  destruct (has_context c) eqn:Hk.
  2:{ unfold downloadAsPNG. rewrite Hc, Hk. cbn [negb].
      repeat split; auto; intros; try discriminate; congruence. }
  destruct (documentLines (text e)) as [|l ls] eqn:Hd.
  - rewrite (export_blank Blob measureText toBlob e w c Hc Hk Hd).
    cbn [saved devicePixelRatio canvasRef].
    repeat split; auto; intros; try discriminate; congruence.
  - assert (Hne : documentLines (text e) <> []) by (rewrite Hd; discriminate).
    rewrite (export_runs Blob measureText toBlob e w c Hc Hk Hne).
    cbv zeta. cbn [saved devicePixelRatio canvasRef].
    set (c' := paint _ _ _ _ _).
    split; [reflexivity|]. split; [|split; [|split]].
    + destruct (toBlob c') as [blob|] eqn:Eb; [right|now left].
      exists c', blob. repeat split; auto. discriminate.
    + intros; discriminate.
    + intros c0 E. injection E as <-. congruence.
    + intros c0 E Hn. injection E as <-. now rewrite Hn.
Qed.

Lemma split_by_length (p : char -> bool) (s : jsstring) :
  List.length (split_by p s) = S (List.length (filter p s)).
Proof.
  induction s as [|c r IH]; [reflexivity|].
  cbn [split_by filter]. destruct (p c).
  - cbn [List.length]. now rewrite IH.
  - destruct (split_by p r) as [|h t]; cbn [List.length] in *;
      [discriminate IH|exact IH].
Qed.

(** X8. The preview has one row per line of the text, that is one more
    than the text has newlines, and no row is empty (an empty line
    shows one no-break space); blank lines are kept, so the preview
    never has fewer rows than the export has source lines; and the
    words of the rows are the words of the text. *)
Theorem preview_rows :
  forall t : jsstring,
    List.length (previewRows t)
    = S (List.length (filter (N.eqb newline) t)) /\
    Forall (fun row => row <> []) (previewRows t) /\
    (List.length (documentLines t) <= List.length (previewRows t))%nat /\
    flat_map words (previewRows t) = words t.
Proof.
  intros t. unfold previewRows, documentLines.
  split; [|split; [|split]].
  - rewrite length_map. apply split_by_length.
  - apply Forall_forall. intros row Hr.
    apply in_map_iff in Hr as (l & <- & _).
    destruct l; cbn; discriminate.
  - rewrite length_map. apply filter_length_le.
  - rewrite (words_split newline t newline_is_ws).
    induction (split newline t) as [|l ls IH]; [reflexivity|].
    cbn [map flat_map]. rewrite IH. f_equal.
    destruct l; reflexivity.
Qed.

(* ================================================================== *)
(** * Further properties: the greedy wrap *)
(* ================================================================== *)

Section JoinFacts.

Lemma join_cons (sep : char) (w : jsstring) (ws : list jsstring) :
  ws <> [] -> join sep (w :: ws) = w ++ sep :: join sep ws.
Proof. destruct ws; [contradiction|reflexivity]. Qed.

(** Joining the pieces of a split gives the string back. *)
Lemma join_split (sep : char) (s : jsstring) : join sep (split sep s) = s.
Proof.
  unfold split. induction s as [|c r IH]; [reflexivity|].
  cbn [split_by]. destruct (N.eqb sep c) eqn:E.
  - apply N.eqb_eq in E. subst c.
    rewrite join_cons by apply split_by_not_nil. now rewrite IH.
  - destruct (split_by (N.eqb sep) r) as [|h t] eqn:Er.
    + now apply split_by_not_nil in Er.
    + rewrite <- IH. destruct t; reflexivity.
Qed.

Lemma join_snoc (sep : char) (pre : list jsstring) (w : jsstring) :
  pre <> [] -> join sep (pre ++ [w]) = join sep pre ++ sep :: w.
Proof.
  induction pre as [|p ps IH]; intros H; [contradiction|].
  destruct ps as [|q qs]; [reflexivity|].
  change ((p :: q :: qs) ++ [w]) with (p :: ((q :: qs) ++ [w])).
  rewrite join_cons by (destruct qs; discriminate).
  rewrite IH by discriminate.
  rewrite (join_cons sep p (q :: qs)) by discriminate.
  now rewrite <- app_assoc.
Qed.

End JoinFacts.

Section WrapMore.

Variable measure : jsstring -> Q.
Variable maxWidth : Q.

Local Abbreviation word_step := (wrapWord measure maxWidth).
Local Abbreviation line_step := (wrapLine measure maxWidth).
Local Abbreviation wrap := (wrapLines measure maxWidth).

(** The lines emitted before do not influence what a step emits. *)
Lemma wrapWord_prefix (wl : list jsstring) (cur : list char)
      (word : jsstring) :
  word_step (wl, cur) word
  = (wl ++ fst (word_step ([], cur) word), snd (word_step ([], cur) word)).
Proof.
  unfold wrapWord.
  destruct (Qle_bool _ maxWidth); [now rewrite app_nil_r|].
  destruct (truthy cur); reflexivity.
Qed.

Lemma fold_wrapWord_prefix (ws : list jsstring) :
  forall (wl : list jsstring) (cur : list char),
    fold_left word_step ws (wl, cur)
    = (wl ++ fst (fold_left word_step ws ([], cur)),
       snd (fold_left word_step ws ([], cur))).
Proof.
  induction ws as [|w ws IH]; intros wl cur; cbn [fold_left].
  - now rewrite app_nil_r.
  - rewrite (wrapWord_prefix wl cur w).
    destruct (word_step ([], cur) w) as [d cur'] eqn:E. cbn [fst snd].
    unfold jsstring in *.
    rewrite (IH (wl ++ d) cur'), (IH d cur'). cbn [fst snd].
    now rewrite app_assoc.
Qed.

Lemma wrapLine_prefix (wl : list jsstring) (line : jsstring) :
  line_step wl line = wl ++ line_step [] line.
Proof.
  unfold wrapLine. destruct (truthy (trim line)); simpl negb; cbv iota zeta.
  - rewrite (fold_wrapWord_prefix (split space line) wl []).
    destruct (fold_left word_step (split space line) ([], [])) as [d cur].
    cbn [fst snd]. destruct (truthy cur); [now rewrite app_assoc|].
    reflexivity.
  - now rewrite app_nil_r.
Qed.

Lemma fold_wrapLine_flat (lines : list jsstring) :
  forall wl : list jsstring,
    fold_left line_step lines wl = wl ++ flat_map (line_step []) lines.
Proof.
  induction lines as [|l ls IH]; intros wl; cbn [fold_left flat_map].
  - now rewrite app_nil_r.
  - rewrite IH, (wrapLine_prefix wl l). now rewrite app_assoc.
Qed.

Lemma wrapLine_blank (line : jsstring) :
  truthy (trim line) = false -> line_step [] line = [].
Proof. intros H. unfold wrapLine. now rewrite H. Qed.

(** A line all of whose space-separated prefixes fit stays in the
    current line to the end. *)
Lemma fold_wrapWord_fits (rest : list jsstring) :
  forall (pre : list jsstring) (cur : list char),
    pre <> [] -> cur = join space pre -> truthy cur = true ->
    (forall k : nat,
        (1 <= k <= List.length rest)%nat ->
        measure (join space (pre ++ firstn k rest)) <= maxWidth) ->
    fold_left word_step rest ([], cur) = ([], join space (pre ++ rest)).
Proof.
  induction rest as [|w r IH]; intros pre cur Hne Hc Ht Hfit;
    cbn [fold_left].
  - rewrite app_nil_r. now subst.
  - assert (Hf : measure (join space (pre ++ [w])) <= maxWidth).
    { apply (Hfit 1%nat). cbn [List.length]. lia. }
    apply Qle_bool_iff in Hf. rewrite (join_snoc space pre w Hne) in Hf.
    unfold wrapWord at 2. rewrite Ht, Hc, Hf.
    rewrite (IH (pre ++ [w])).
    + now rewrite <- app_assoc.
    + destruct pre; discriminate.
    + now rewrite (join_snoc space pre w Hne).
    + destruct (join space pre); reflexivity.
    + intros k Hk. rewrite <- app_assoc.
      apply (Hfit (S k)). cbn [List.length]. lia.
Qed.

Lemma token_noLead (w : jsstring) : ~ In space w -> noLead w.
Proof.
  intros H E. destruct w as [|c r]; [discriminate|].
  injection E as ->. apply H. now left.
Qed.

Lemma wrapWord_shape (s : list jsstring * jsstring) (word : jsstring) :
  ~ In space word ->
  Forall (wellShaped measure maxWidth) (fst s) -> noLead (snd s) ->
  Forall (wellShaped measure maxWidth) (fst (word_step s word)) /\
  noLead (snd (word_step s word)).
Proof.
  destruct s as [wl cur]. cbn [fst snd]. intros Hw Hwl Hcur.
  unfold wrapWord.
  destruct cur as [|c cur]; cbn [truthy].
  - destruct (Qle_bool (measure word) maxWidth) eqn:Et; cbn [fst snd].
    + split; [exact Hwl|]. now apply token_noLead.
    + split; [|exact Hcur].
      apply Forall_app. split; [exact Hwl|].
      constructor; [|constructor]. split; [now apply token_noLead|].
      intros Hfit ->. apply Qle_bool_iff in Hfit. congruence.
  - destruct (Qle_bool _ maxWidth); cbn [fst snd].
    + split; [exact Hwl|]. exact Hcur.
    + split; [|now apply token_noLead].
      apply Forall_app. split; [exact Hwl|].
      constructor; [|constructor]. split; [exact Hcur|]. discriminate.
Qed.

Lemma fold_wrapWord_shape (ws : list jsstring) :
  (forall w, In w ws -> ~ In space w) ->
  forall s,
    Forall (wellShaped measure maxWidth) (fst s) -> noLead (snd s) ->
    Forall (wellShaped measure maxWidth) (fst (fold_left word_step ws s)) /\
    noLead (snd (fold_left word_step ws s)).
Proof.
  induction ws as [|w ws IH]; intros Hws s H1 H2; cbn [fold_left].
  - now split.
  - destruct (wrapWord_shape s w) as [H1' H2']; auto.
    + apply Hws. now left.
    + apply IH; auto. intros x Hx. apply Hws. now right.
Qed.

Lemma wrapLine_shape (line : jsstring) :
  Forall (wellShaped measure maxWidth) (line_step [] line).
Proof.
  unfold wrapLine.
  destruct (truthy (trim line)); simpl negb; cbv iota zeta; [|constructor].
  assert (Htok : forall w, In w (split space line) -> ~ In space w).
  { intros w Hw Hsp.
    pose proof (split_by_pieces _ _ _ Hw _ Hsp) as E. discriminate E. }
  destruct (fold_wrapWord_shape (split space line) Htok ([], []))
    as [H1 H2]; [constructor|discriminate|].
  - destruct (fold_left word_step (split space line) ([], []))
      as [wl cur]. cbn [fst snd] in *.
    destruct cur as [|c cur]; cbn [truthy]; [exact H1|].
    apply Forall_app. split; [exact H1|].
    constructor; [|constructor]. split; [exact H2|discriminate].
Qed.

End WrapMore.

(** X9. No wrapped line begins with a space, and when the empty string
    fits the width (its measure is at most the width, as for any real
    font) no wrapped line is empty. *)
Theorem wrapped_lines_shape :
  forall (measure : jsstring -> Q) (maxWidth : Q)
         (lines : list jsstring) (line : jsstring),
    In line (wrapLines measure maxWidth lines) ->
    hd_error line <> Some space /\
    (measure [] <= maxWidth -> line <> []).
Proof.
  intros measure maxWidth lines line Hin.
  unfold wrapLines in Hin. rewrite fold_wrapLine_flat in Hin.
  cbn [app] in Hin. apply in_flat_map in Hin as (l & _ & Hl).
  pose proof (wrapLine_shape measure maxWidth l) as H.
  rewrite Forall_forall in H. exact (H line Hl).
Qed.

(** A line with two spaces in a row: the second piece does not begin
    with a space and is not empty. *)
Lemma wrapped_lines_shape_witness :
  let m := Host.mono (fontOf (Host.big Left)) in
  let lines := [lit "  abcdefghijklmnopqrstuvwxyz   hello "] in
  let line := lit "hello " in
  In line (wrapLines m availableWidth lines) /\
  hd_error line <> Some space /\
  (m [] <= availableWidth -> line <> []).
Proof.
  intros m lines line.
  assert (H : In line (wrapLines m availableWidth lines))
    by (vm_compute; right; left; reflexivity).
  exact (conj H (wrapped_lines_shape m availableWidth lines line H)).
Defined.

(** X10. The wrap works line by line: the wrapped lines of two lists
    of source lines put together are those of the first followed by
    those of the second, so text of one source line never shares a
    wrapped line with text of another; and a blank source line gives
    no wrapped line, so wrapping the lines of a text gives the same
    whether or not the blank lines are filtered out first. *)
Theorem wrap_is_line_local :
  forall (measure : jsstring -> Q) (maxWidth : Q),
    (forall l1 l2 : list jsstring,
        wrapLines measure maxWidth (l1 ++ l2)
        = wrapLines measure maxWidth l1 ++ wrapLines measure maxWidth l2) /\
    (forall t : jsstring,
        wrapLines measure maxWidth (documentLines t)
        = wrapLines measure maxWidth (split newline t)).
Proof.
  intros measure maxWidth. split.
  - intros l1 l2. unfold wrapLines. rewrite !fold_wrapLine_flat.
    cbn [app]. apply flat_map_app.
  - intros t. unfold wrapLines, documentLines.
    rewrite !fold_wrapLine_flat. cbn [app].
    induction (split newline t) as [|l ls IH]; [reflexivity|].
    cbn [filter flat_map]. destruct (truthy (trim l)) eqn:E.
    + cbn [flat_map]. now rewrite IH.
    + now rewrite IH, (wrapLine_blank measure maxWidth l E).
Qed.

(** X11. A line that is not blank, does not begin with a space and of
    which every prefix ending before a space or at the end of the line
    fits the width is wrapped into itself, unchanged. *)
Theorem short_line_unchanged :
  forall (measure : jsstring -> Q) (maxWidth : Q) (line : jsstring),
    truthy (trim line) = true ->
    hd_error line <> Some space ->
    (forall k : nat,
        (1 <= k <= List.length (split space line))%nat ->
        measure (join space (firstn k (split space line))) <= maxWidth) ->
    wrapLines measure maxWidth [line] = [line].
Proof.
  intros measure maxWidth line Ht Hhd Hfit.
  unfold wrapLines. cbn [fold_left]. unfold wrapLine. rewrite Ht.
  simpl negb. cbv iota zeta.
  pose proof (join_split space line) as Hj.
  destruct (split space line) as [|t1 rest] eqn:Es.
  { now apply split_by_not_nil in Es. }
  assert (Ht1 : truthy t1 = true).
  { destruct t1 as [|c r]; [|reflexivity]. exfalso.
    destruct line as [|c l]; [discriminate Ht|].
    unfold split in Es. cbn [split_by] in Es.
    destruct (N.eqb space c) eqn:Ec.
    - apply N.eqb_eq in Ec. subst c. now apply Hhd.
    - destruct (split_by (N.eqb space) l); discriminate Es. }
  assert (H1 : Qle_bool (measure t1) maxWidth = true).
  { apply Qle_bool_iff. apply (Hfit 1%nat). cbn [List.length]. lia. }
  cbn [fold_left]. unfold wrapWord at 2. cbn [truthy]. rewrite H1.
  rewrite (fold_wrapWord_fits measure maxWidth rest [t1] t1);
    [|discriminate|reflexivity|exact Ht1|].
  - cbn [app]. rewrite Hj.
    destruct line; [discriminate Ht|reflexivity].
  - intros k Hk. apply (Hfit (S k)). cbn [List.length]. lia.
Qed.

(** Scenario A of the design: [hello world] at 48 px monospace. *)
Lemma short_line_unchanged_witness :
  let m := Host.mono (fontOf (Host.big Left)) in
  let line := lit "hello world" in
  truthy (trim line) = true /\
  hd_error line <> Some space /\
  wrapLines m availableWidth [line] = [line].
Proof.
  intros m line.
  assert (H1 : truthy (trim line) = true) by reflexivity.
  assert (H2 : hd_error line <> Some space) by discriminate.
  assert (H3 : forall k : nat,
             (1 <= k <= List.length (split space line))%nat ->
             m (join space (firstn k (split space line))) <= availableWidth).
  { intros k Hk. change (List.length (split space line)) with 2%nat in Hk.
    destruct k as [|[|[|k]]]; [lia| | |lia]; vm_compute; discriminate. }
  exact (conj H1 (conj H2
           (short_line_unchanged m availableWidth line H1 H2 H3))).
Defined.

(* ================================================================== *)
(** * Further properties: what the export draws *)
(* ================================================================== *)

Section DrawFacts.

Variable measureText : Font -> jsstring -> Q.
Variable st : TextStyle.

Lemma opsFor_ext (m : jsstring -> Q) (k1 k2 : Context2D)
      (p : jsstring * Q * Q) :
  textState k1 = textState k2 -> opsFor st m k1 p = opsFor st m k2 p.
Proof.
  unfold textState, opsFor. intros H. injection H as H1 H2 H3 H4 H5.
  destruct p as [[s x] y]. now rewrite H1, H2, H3, H4, H5.
Qed.

Lemma flat_map_opsFor_ext (m : jsstring -> Q) (k1 k2 : Context2D)
      (P : list (jsstring * Q * Q)) :
  textState k1 = textState k2 ->
  flat_map (opsFor st m k1) P = flat_map (opsFor st m k2) P.
Proof.
  intros H. apply flat_map_ext. intros p. now apply opsFor_ext.
Qed.

(** One text drawn whole, with its underline when asked for. *)
Lemma text_drawn (s : jsstring) (x y : Q) (c : Canvas) :
  let c' := (fillText s x y ;;
             when (underline st)
               (fun c0 => strokeUnder st x y (measure measureText c0 s) c0))
              c in
  bitmap c' = bitmap c
              ++ opsFor st (measureText (font (ctx c))) (ctx c) (s, x, y) /\
  textState (ctx c') = textState (ctx c).
Proof.
  unfold seq_, when, skip, opsFor. destruct (underline st).
  - split; [|reflexivity].
    unfold strokeUnder, seq_, stroke, fillText, draw, measure. cbn.
    now rewrite <- app_assoc.
  - split; reflexivity.
Qed.

Lemma justifyWord_full (y gap : Q) (n : nat) (word : jsstring) (i : nat)
      (x : Q) (c : Canvas) :
  let r := justifyWord measureText st y gap n word i (x, c) in
  bitmap (snd r)
  = bitmap c ++ opsFor st (measureText (font (ctx c))) (ctx c) (word, x, y) /\
  textState (ctx (snd r)) = textState (ctx c).
Proof.
  unfold justifyWord, opsFor.
  destruct (underline st); destruct (Z.of_nat i <? Z.of_nat n - 1)%Z;
    cbn [snd]; split; try reflexivity;
    unfold strokeUnder, seq_, stroke, fillText, draw, measure; cbn;
    now rewrite <- app_assoc.
Qed.

Lemma textState_font (k1 k2 : Context2D) :
  textState k1 = textState k2 -> font k1 = font k2.
Proof. unfold textState. intros H. now injection H. Qed.

Lemma justify_loop_full (y gap : Q) (n : nat) (ws : list jsstring) :
  forall (i : nat) (x : Q) (c : Canvas),
    (i + List.length ws = n)%nat ->
    let r := forEachi_from (justifyWord measureText st y gap n) i ws (x, c) in
    bitmap (snd r)
    = bitmap c
      ++ flat_map (opsFor st (measureText (font (ctx c))) (ctx c))
           (placedAt y ws (positions (measureText (font (ctx c))) gap x ws)) /\
    textState (ctx (snd r)) = textState (ctx c).
Proof.
  induction ws as [|w rest IH]; intros i x c Hn; cbn [forEachi_from].
  - cbn. now rewrite app_nil_r.
  - destruct (justifyWord_full y gap n w i x c) as (Hb & Hs).
    destruct (justifyWord_spec measureText st y gap n w i x c)
      as (_ & _ & Hx).
    destruct (justifyWord measureText st y gap n w i (x, c)) as [x1 c1].
    cbn [fst snd] in Hb, Hs, Hx.
    destruct (IH (S i) x1 c1) as [IHb IHs].
    { cbn [List.length] in Hn. lia. }
    cbv zeta. split; [|now rewrite IHs].
    rewrite IHb, Hb, (textState_font _ _ Hs), <- app_assoc. f_equal.
    rewrite (flat_map_opsFor_ext _ (ctx c1) (ctx c) _ Hs).
    change (placedAt y (w :: rest)
              (positions (measureText (font (ctx c))) gap x (w :: rest)))
      with ((w, x, y)
            :: placedAt y rest
                 (positions (measureText (font (ctx c))) gap
                            (x + (measureText (font (ctx c)) w + gap)) rest)).
    cbn [flat_map]. f_equal.
    destruct rest as [|w2 rest2]; [reflexivity|].
    assert (E : (Z.of_nat i <? Z.of_nat n - 1)%Z = true).
    { apply Z.ltb_lt. cbn [List.length] in Hn. lia. }
    rewrite E in Hx. now rewrite Hx.
Qed.

(** Whatever branch [drawLine] takes, what it adds to the bitmap is the
    operations of some placed texts, and it keeps the text state. *)
Lemma drawLine_full (n : nat) (lh : Q) (line : jsstring) (index : nat)
      (c : Canvas) :
  exists P : list (jsstring * Q * Q),
    bitmap (drawLine measureText st n lh line index c)
    = bitmap c
      ++ flat_map (opsFor st (measureText (font (ctx c))) (ctx c)) P /\
    textState (ctx (drawLine measureText st n lh line index c))
    = textState (ctx c).
Proof.
  unfold drawLine.
  destruct (Align_eqb (align st) Justify && truthy (trim line)
            && (Z.of_nat index <? Z.of_nat n - 1)%Z).
  - destruct (1 <? List.length (split_ws (trim line)))%nat.
    + eexists. unfold forEachi, measure.
      apply justify_loop_full. reflexivity.
    + exists [(line, padding, padding + Qnat index * lh)].
      cbn [flat_map]. rewrite app_nil_r. apply text_drawn.
  - eexists [(line, _, padding + Qnat index * lh)].
    cbn [flat_map]. rewrite app_nil_r.
    unfold seq_, when, skip, opsFor, measure. destruct (underline st).
    + split; [|reflexivity].
      unfold strokeUnder, seq_, stroke, fillText, draw. cbn.
      now rewrite <- app_assoc.
    + split; reflexivity.
Qed.

Lemma drawLines_from_full (n : nat) (lh : Q) (lines : list jsstring) :
  forall (i : nat) (c : Canvas),
    exists P : list (jsstring * Q * Q),
      bitmap (forEachi_from (drawLine measureText st n lh) i lines c)
      = bitmap c
        ++ flat_map (opsFor st (measureText (font (ctx c))) (ctx c)) P /\
      textState (ctx (forEachi_from (drawLine measureText st n lh) i lines c))
      = textState (ctx c).
Proof.
  induction lines as [|l ls IH]; intros i c; cbn [forEachi_from].
  - exists []. cbn. now rewrite app_nil_r.
  - destruct (drawLine_full n lh l i c) as (P1 & Hb1 & Hs1).
    destruct (IH (S i) (drawLine measureText st n lh l i c))
      as (P2 & Hb2 & Hs2).
    exists (P1 ++ P2). split; [|now rewrite Hs2].
    rewrite Hb2, Hb1, (textState_font _ _ Hs1), <- app_assoc, flat_map_app.
    now rewrite (flat_map_opsFor_ext _ _ (ctx c) _ Hs1).
Qed.

Lemma placed_opsFor (m : jsstring -> Q) (k : Context2D)
      (P : list (jsstring * Q * Q)) :
  placed (flat_map (opsFor st m k) P) = P.
Proof.
  induction P as [|[[s x] y] P IH]; [reflexivity|].
  cbn [flat_map]. unfold placed in *. rewrite flat_map_app, IH.
  unfold opsFor. destruct (underline st); reflexivity.
Qed.

Lemma strokes_opsFor (m : jsstring -> Q) (k : Context2D)
      (P : list (jsstring * Q * Q)) :
  strokes (flat_map (opsFor st m k) P)
  = if underline st then map (underlineOf st m) P else [].
Proof.
  induction P as [|[[s x] y] P IH].
  - cbn. now destruct (underline st).
  - cbn [flat_map]. unfold strokes in *. rewrite flat_map_app, IH.
    unfold opsFor, underlineOf. destruct (underline st); reflexivity.
Qed.

Lemma placed_clear_ops (m : jsstring -> Q) (k : Context2D)
      (a b w h sx sy : Q) (P : list (jsstring * Q * Q)) :
  placed (ClearRect a b w h sx sy :: flat_map (opsFor st m k) P) = P.
Proof.
  change (placed (ClearRect a b w h sx sy :: flat_map (opsFor st m k) P))
    with (placed (flat_map (opsFor st m k) P)).
  apply placed_opsFor.
Qed.

(** The bitmap after [paint]: the clearing of the logical surface, then
    the operations of the placed texts under the state set up for them. *)
Lemma paint_full (dpr : Q) (lines : list jsstring) (c : Canvas) :
  let c' := paint measureText st dpr lines c in
  textState (ctx c') = (fontOf st, color st, Top, 1 * dpr, 1 * dpr) /\
  bitmap c'
  = ClearRect 0 0 fixedWidth (textHeightOf st lines + padding * 2)
              (1 * dpr) (1 * dpr)
    :: flat_map (opsFor st (measureText (fontOf st)) (ctx c'))
                (placed (bitmap c')).
Proof.
  cbv zeta. unfold paint, seq_, drawLines, forEachi.
  match goal with
  | |- context [forEachi_from ?f 0 lines ?c0] =>
      destruct (drawLines_from_full (List.length lines) (lineHeightOf st)
                  lines 0 c0) as (P & Hb & Hs);
      assert (B0 : bitmap c0
                   = [ClearRect 0 0 fixedWidth
                        (textHeightOf st lines + padding * 2)
                        (1 * dpr) (1 * dpr)]) by reflexivity;
      assert (F0 : font (ctx c0) = fontOf st) by reflexivity;
      assert (S0 : textState (ctx c0)
                   = (fontOf st, color st, Top, 1 * dpr, 1 * dpr))
        by reflexivity;
      rewrite B0, F0 in Hb; rewrite S0 in Hs; clear B0 F0;
      set (c' := forEachi_from f 0 lines c0) in *
  end.
  split; [exact Hs|].
  rewrite Hb. cbn [app]. rewrite placed_clear_ops. f_equal.
  apply flat_map_opsFor_ext. now rewrite Hs, S0.
Qed.

(** The strokes after [paint] are the underlines of the placed texts. *)
Lemma paint_strokes (dpr : Q) (lines : list jsstring) (c : Canvas) :
  strokes (bitmap (paint measureText st dpr lines c))
  = if underline st
    then map (underlineOf st (measureText (fontOf st)))
             (placed (bitmap (paint measureText st dpr lines c)))
    else [].
Proof.
  destruct (paint_full dpr lines c) as [_ Hb]. cbv zeta in Hb.
  set (c' := paint measureText st dpr lines c) in *.
  rewrite Hb at 1.
  rewrite <- (strokes_opsFor (measureText (fontOf st)) (ctx c')
                (placed (bitmap c'))).
  reflexivity.
Qed.

End DrawFacts.

(** X12. What an export paints, whatever the canvas held before: first
    one [clearRect] of the whole logical surface, then for each placed
    text its [fillText], and nothing else but the underlines. Every
    text is filled with the font composed from the style, in the
    colour of the style, on the top baseline and under a scale of
    exactly the device scale (the scale of an earlier export is not
    accumulated). *)
Theorem export_paints_with_style :
  forall (measureText : Font -> jsstring -> Q) (st : TextStyle)
         (dpr : Q) (lines : list jsstring) (c : Canvas),
    let c' := paint measureText st dpr lines c in
    bitmap c'
    = ClearRect 0 0 fixedWidth (textHeightOf st lines + padding * 2)
                (1 * dpr) (1 * dpr)
      :: flat_map (opsFor st (measureText (fontOf st)) (ctx c'))
                  (placed (bitmap c')) /\
    font (ctx c') = fontOf st /\
    fillStyle (ctx c') = color st /\
    textBaseline (ctx c') = Top /\
    scaleX (ctx c') = 1 * dpr /\ scaleY (ctx c') = 1 * dpr.
Proof.
  intros measureText st dpr lines c c'.
  destruct (paint_full measureText st dpr lines c) as [Hs Hb].
  fold c' in Hs, Hb. split; [exact Hb|].
  unfold textState in Hs. injection Hs as H1 H2 H3 H4 H5.
  repeat split; assumption.
Qed.

(** X13. Underlines: with underline off an export strokes nothing; with
    underline on it strokes exactly one line per placed text, in the
    same order, from the x of the text to x plus the measured width of
    the text, [fontSize + 2] below the y of the text, in the colour of
    the style and one unit thick. *)
Theorem underline_strokes :
  forall (measureText : Font -> jsstring -> Q) (st : TextStyle)
         (dpr : Q) (lines : list jsstring) (c : Canvas),
    let c' := paint measureText st dpr lines c in
    strokes (bitmap c')
    = if underline st
      then map (underlineOf st (measureText (fontOf st))) (placed (bitmap c'))
      else [].
Proof.
  intros measureText st dpr lines c c'. apply paint_strokes.
Qed.

Section RowFacts.

Variable measureText : Font -> jsstring -> Q.
Variable st : TextStyle.

Lemma drawLine_font (n : nat) (lh : Q) (line : jsstring) (index : nat)
      (c : Canvas) :
  font (ctx (drawLine measureText st n lh line index c)) = font (ctx c).
Proof.
  destruct (drawLine_full measureText st n lh line index c) as (P & _ & Hs).
  exact (textState_font _ _ Hs).
Qed.

(** Under an alignment other than justify a line is placed whole. *)
Lemma drawLine_whole (n : nat) (lh : Q) (line : jsstring) (index : nat)
      (c : Canvas) :
  align st <> Justify ->
  placed (bitmap (drawLine measureText st n lh line index c))
  = placed (bitmap c)
    ++ [(line, alignX (align st) (measureText (font (ctx c)) line),
         padding + Qnat index * lh)].
Proof.
  intros Ha. unfold drawLine.
  destruct (align st) eqn:E; try contradiction; cbn [Align_eqb andb];
    unfold measure, alignX; apply whole_line_placed.
Qed.

Lemma drawLines_rows (n : nat) (lh : Q) (lines : list jsstring) :
  align st <> Justify ->
  forall (i : nat) (c : Canvas),
    placed (bitmap (forEachi_from (drawLine measureText st n lh) i lines c))
    = placed (bitmap c)
      ++ rowsFrom (measureText (font (ctx c))) (align st) lh i lines.
Proof.
  intros Ha. induction lines as [|l ls IH]; intros i c;
    cbn [forEachi_from rowsFrom].
  - now rewrite app_nil_r.
  - rewrite IH, drawLine_font, (drawLine_whole n lh l i c Ha).
    now rewrite <- app_assoc.
Qed.

End RowFacts.

Section JustifiedFacts.

Variable measureText : Font -> jsstring -> Q.
Variable st : TextStyle.
Hypothesis justified : align st = Justify.

Lemma gapOf_shares (m : jsstring -> Q) (ws : list jsstring) :
  (1 < List.length ws)%nat ->
  gapOf m ws * (Qnat (List.length ws) - 1)
  == availableWidth - fold_left (fun sum word => sum + m word) ws 0.
Proof.
  intros Hw. unfold gapOf. rewrite Qmult_comm. apply Qmult_div_r.
  apply Qnat_pred_nonzero. exact Hw.
Qed.

(** A line that others follow. *)
Lemma drawLine_justifiedRow (n : nat) (lh : Q) (line : jsstring)
      (index : nat) (c : Canvas) :
  (index + 1 < n)%nat ->
  placed (bitmap (drawLine measureText st n lh line index c))
  = placed (bitmap c)
    ++ justifiedRow (measureText (font (ctx c))) lh index line.
Proof.
  intros Hi. unfold justifiedRow.
  destruct (1 <? List.length (split_ws (trim line)))%nat eqn:Ew.
  - apply Nat.ltb_lt in Ew.
    exact (drawLine_justify_stretched measureText st n lh line index c
             justified Hi Ew).
  - apply Nat.ltb_ge in Ew.
    apply drawLine_justify_unstretched; [exact justified|now right].
Qed.

(** The loop over the wrapped lines, from line [i] on, when the lines
    left are [init] and then the last line of all. *)
Lemma drawLines_justified (n : nat) (lh : Q) (final : jsstring)
      (init : list jsstring) :
  forall (i : nat) (c : Canvas),
    (i + List.length init + 1 = n)%nat ->
    placed (bitmap (forEachi_from (drawLine measureText st n lh) i
                                  (init ++ [final]) c))
    = placed (bitmap c)
      ++ justifiedRows (measureText (font (ctx c))) lh i init
      ++ [(final, padding, padding + Qnat (i + List.length init) * lh)].
Proof.
  induction init as [|l ls IH]; intros i c Hn;
    cbn [app forEachi_from justifiedRows List.length] in *.
  - rewrite Nat.add_0_r.
    apply drawLine_justify_unstretched; [exact justified|left; lia].
  - rewrite IH by lia.
    rewrite drawLine_font, (drawLine_justifiedRow n lh l i c) by lia.
    rewrite Nat.add_succ_r. cbn [Nat.add].
    now rewrite <- !app_assoc.
Qed.

Lemma paint_justified (dpr : Q) (init : list jsstring) (final : jsstring)
      (c : Canvas) :
  placed (bitmap (paint measureText st dpr (init ++ [final]) c))
  = justifiedRows (measureText (fontOf st)) (lineHeightOf st) 0 init
    ++ [(final, padding,
         padding + Qnat (List.length init) * lineHeightOf st)].
Proof.
  unfold paint, seq_, drawLines, forEachi.
  rewrite (drawLines_justified _ (lineHeightOf st) final init 0);
    [reflexivity|].
  rewrite length_app. cbn [List.length Nat.add]. lia.
Qed.

End JustifiedFacts.

(** C5. With the alignment set to justify, an export of the wrapped
    lines [init] followed by the last line [final] places the last line
    whole at x = padding, whatever its words; of the lines before it, a
    line of at most one word is placed whole at x = padding, and a line
    of several words has its words placed from x = padding on, each
    after the previous word's width and one gap, the same gap between
    all words of the line: the available width less the widths of the
    words, divided equally among the gaps.  Line [i] is at
    [y = padding + i * lineHeight].  This is so of [paint] on any
    canvas, and of the handler on a mounted canvas for the wrapped
    lines of the document. *)
Theorem justify_placement :
  forall (Blob : Type) (measureText : Font -> jsstring -> Q)
         (toBlob : Canvas -> option Blob) (e : Editor) (w : World Blob)
         (c : Canvas) (init : list jsstring) (final : jsstring),
    align (style e) = Justify ->
    let st := style e in
    let m := measureText (fontOf st) in
    let lh := lineHeightOf st in
    let rows :=
      justifiedRows m lh 0 init
      ++ [(final, padding, padding + Qnat (List.length init) * lh)] in
    (forall ws : list jsstring,
        (1 < List.length ws)%nat ->
        gapOf m ws * (Qnat (List.length ws) - 1)
        == availableWidth - fold_left (fun sum word => sum + m word) ws 0) /\
    (forall (i : nat) (line : jsstring),
        (List.length (split_ws (trim line)) <= 1)%nat ->
        justifiedRow m lh i line = [(line, padding, padding + Qnat i * lh)]) /\
    (forall (dpr : Q) (c0 : Canvas),
        placed (bitmap (paint measureText st dpr (init ++ [final]) c0))
        = rows) /\
    (canvasRef w = Some c -> has_context c = true ->
     wrappedLinesOf measureText e = init ++ [final] ->
     exists c' : Canvas,
       canvasRef (downloadAsPNG measureText toBlob e w) = Some c' /\
       placed (bitmap c') = rows).
Proof.
  intros Blob measureText toBlob e w c init final Ha st m lh rows.
  split; [intros ws Hw; apply gapOf_shares; exact Hw|].
  split.
  { intros i line Hw. unfold justifiedRow.
    apply Nat.ltb_ge in Hw. now rewrite Hw. }
  split; [intros dpr c0; apply paint_justified; exact Ha|].
  intros Hc Hk Hw.
  assert (Hd : documentLines (text e) <> []).
  { intros E. unfold wrappedLinesOf in Hw. rewrite E in Hw.
    cbn in Hw. destruct init; discriminate Hw. }
  rewrite (export_runs Blob measureText toBlob e w c Hc Hk Hd).
  cbv zeta. cbn [canvasRef]. eexists. split; [reflexivity|].
  rewrite Hw. apply paint_justified. exact Ha.
Qed.

(** At 48 px monospace the document below wraps into three lines: four
    words that are stretched from 1 to 599, one long word, and a last
    line of two words that is not stretched. *)
Lemma justify_placement_witness :
  let e := Host.editor "aaaa bbbb cccc dddd eeeeeeeeeeeeeeeeee ffff gggg"
                       (Host.big Justify) in
  let w := Host.world 1 in
  let init := [lit "aaaa bbbb cccc dddd"; lit "eeeeeeeeeeeeeeeeee"] in
  let final := lit "ffff gggg" in
  align (style e) = Justify /\
  canvasRef w = Some Host.mounted /\
  has_context Host.mounted = true /\
  wrappedLinesOf Host.mono e = init ++ [final] /\
  (exists c' : Canvas,
      canvasRef (downloadAsPNG Host.mono Host.snapshot e w) = Some c' /\
      placed (bitmap c')
      = justifiedRows (Host.mono (fontOf (style e)))
                      (lineHeightOf (style e)) 0 init
        ++ [(final, padding,
             padding + Qnat (List.length init) * lineHeightOf (style e))]) /\
  Host.view (downloadAsPNG Host.mono Host.snapshot e w)
  = [("aaaa", 1, 1); ("bbbb", 2429 # 15, 1); ("cccc", 4843 # 15, 1);
     ("dddd", 2419 # 5, 1); ("eeeeeeeeeeeeeeeeee", 1, 73);
     ("ffff gggg", 1, 145)]%string.
Proof.
  intros e w init final.
  assert (H1 : align (style e) = Justify) by reflexivity.
  assert (H2 : canvasRef w = Some Host.mounted) by reflexivity.
  assert (H3 : has_context Host.mounted = true) by reflexivity.
  assert (H4 : wrappedLinesOf Host.mono e = init ++ [final])
    by (vm_compute; reflexivity).
  split; [exact H1|]. split; [exact H2|]. split; [exact H3|].
  split; [exact H4|]. split.
  - exact (proj2 (proj2 (proj2
             (justify_placement Canvas Host.mono Host.snapshot e w
                                Host.mounted init final H1)))
             H2 H3 H4).
  - vm_compute. reflexivity.
Defined.

(** X14. Under left, centre or right alignment an export places exactly
    one text per wrapped line, the whole line, in order: line [i] at
    [y = padding + i * lineHeight] and at the x of its alignment
    ([padding], [(fixedWidth - w) / 2] or [fixedWidth - w - padding]
    for a line of measured width [w]). *)
Theorem rows_of_unjustified_export :
  forall (measureText : Font -> jsstring -> Q) (st : TextStyle)
         (dpr : Q) (lines : list jsstring) (c : Canvas),
    align st <> Justify ->
    placed (bitmap (paint measureText st dpr lines c))
    = rowsFrom (measureText (fontOf st)) (align st) (lineHeightOf st)
               0 lines.
Proof.
  intros measureText st dpr lines c Ha.
  unfold paint, seq_, drawLines, forEachi.
  rewrite (drawLines_rows measureText st _ _ lines Ha). reflexivity.
Qed.

(** Two centred lines at 48 px monospace. *)
Lemma rows_of_unjustified_export_witness :
  let st := Host.big Center in
  let lines := [lit "hello"; lit "world!"] in
  align st <> Justify /\
  placed (bitmap (paint Host.mono st 1 lines Host.mounted))
  = rowsFrom (Host.mono (fontOf st)) Center (lineHeightOf st) 0 lines /\
  Host.view (Host.world_on (paint Host.mono st 1 lines Host.mounted) 1)
  = [("hello", 228, 1); ("world!", 1068 # 5, 73)]%string.
Proof.
  intros st lines.
  assert (H : align st <> Justify) by discriminate.
  split; [exact H|]. split.
  - exact (rows_of_unjustified_export Host.mono st 1 lines Host.mounted H).
  - vm_compute. reflexivity.
Defined.

(** X15. A line that fits the available width and is drawn whole (any
    alignment but justify, or under justify the last line or a line of
    at most one word) lies inside the padded box: its text starts at or
    after [padding] and ends at or before [fixedWidth - padding]; a
    centred line has equal margins on both sides. *)
Theorem fitting_line_stays_in_box :
  forall (measureText : Font -> jsstring -> Q) (st : TextStyle)
         (n : nat) (lh : Q) (line : jsstring) (index : nat) (c : Canvas),
    let w := measureText (font (ctx c)) line in
    w <= availableWidth ->
    (align st <> Justify \/ (n <= index + 1)%nat \/
     (List.length (split_ws (trim line)) <= 1)%nat) ->
    exists x : Q,
      placed (bitmap (drawLine measureText st n lh line index c))
      = placed (bitmap c) ++ [(line, x, padding + Qnat index * lh)] /\
      padding <= x /\ x + w <= fixedWidth - padding /\
      (align st = Center -> x == fixedWidth - (x + w)).
Proof.
  intros measureText st n lh line index c w Hw Hcase.
  unfold availableWidth, fixedWidth, padding in Hw.
  destruct (align st) eqn:Ea.
  - exists padding. split; [|unfold fixedWidth, padding; repeat split;
                             try lra; discriminate].
    rewrite (drawLine_whole measureText st n lh line index c)
      by (rewrite Ea; discriminate).
    now rewrite Ea.
  - exists ((fixedWidth - w) / 2).
    split.
    + rewrite (drawLine_whole measureText st n lh line index c)
        by (rewrite Ea; discriminate).
      now rewrite Ea.
    + unfold fixedWidth, padding.
      setoid_replace ((600 - w) / 2) with ((600 - w) * (1 # 2)) by field.
      repeat split; lra.
  - exists (fixedWidth - w - padding).
    split; [|unfold fixedWidth, padding; repeat split; try lra;
             discriminate].
    rewrite (drawLine_whole measureText st n lh line index c)
      by (rewrite Ea; discriminate).
    now rewrite Ea.
  - exists padding. split; [|unfold fixedWidth, padding; repeat split;
                             try lra; discriminate].
    apply drawLine_justify_unstretched; [exact Ea|].
    destruct Hcase as [H|H]; [contradiction|exact H].
Qed.

(** A centred line of 11 monospace characters at 48 px. *)
Lemma fitting_line_stays_in_box_witness :
  let st := Host.big Center in
  let line := lit "hello world" in
  let c := set_font (fontOf st) Host.mounted in
  Host.mono (font (ctx c)) line <= availableWidth /\
  align st <> Justify /\
  exists x : Q,
    placed (bitmap (drawLine Host.mono st 1 72 line 0 c))
    = placed (bitmap c) ++ [(line, x, padding + Qnat 0 * 72)] /\
    padding <= x /\
    x + Host.mono (font (ctx c)) line <= fixedWidth - padding /\
    (align st = Center ->
     x == fixedWidth - (x + Host.mono (font (ctx c)) line)).
Proof.
  intros st line c.
  assert (H1 : Host.mono (font (ctx c)) line <= availableWidth)
    by (vm_compute; discriminate).
  assert (H2 : align st <> Justify) by discriminate.
  exact (conj H1 (conj H2
           (fitting_line_stays_in_box Host.mono st 1 72 line 0 c H1
              (or_introl H2)))).
Defined.

Section WordFacts.

(** Splitting at runs of white space and splitting at every white-space
    character give the same pieces once the empty ones are dropped. *)
Lemma split_ws_from_words (s : jsstring) :
  forall (inrun : bool) (acc : jsstring),
    (inrun = true -> acc = []) ->
    filter truthy (split_ws_from inrun acc s)
    = filter truthy (glue (rev acc) (split_by is_ws s)).
Proof.
  induction s as [|c r IH]; intros inrun acc Hacc.
  - cbn. now rewrite app_nil_r.
  - cbn [split_ws_from split_by]. destruct (is_ws c) eqn:Ec.
    + destruct inrun.
      * rewrite (Hacc eq_refl). rewrite (IH true []) by reflexivity.
        cbn [rev glue app filter truthy].
        destruct (split_by is_ws r) as [|h t] eqn:Er;
          [now apply split_by_not_nil in Er|reflexivity].
      * cbn [filter glue]. rewrite app_nil_r.
        rewrite (IH true []) by reflexivity.
        destruct (split_by is_ws r) as [|h t] eqn:Er;
          [now apply split_by_not_nil in Er|reflexivity].
    + rewrite (IH false (c :: acc)) by discriminate.
      destruct (split_by is_ws r) as [|h t] eqn:Er;
        [now apply split_by_not_nil in Er|].
      cbn [glue rev]. now rewrite <- app_assoc.
Qed.

Lemma split_ws_from_pieces (s : jsstring) :
  forall (inrun : bool) (acc : jsstring),
    (forall c, In c acc -> is_ws c = false) ->
    forall w, In w (split_ws_from inrun acc s) ->
              forall c, In c w -> is_ws c = false.
Proof.
  induction s as [|a r IH]; intros inrun acc Hacc w Hw c Hc.
  - cbn in Hw. destruct Hw as [<-|[]].
    apply Hacc. now apply in_rev.
  - cbn [split_ws_from] in Hw. destruct (is_ws a) eqn:Ea.
    + destruct inrun.
      * eapply (IH true acc); eauto.
      * destruct Hw as [<-|Hw].
        -- apply Hacc. now apply in_rev.
        -- eapply (IH true []); eauto. intros x [].
    + eapply (IH false (a :: acc)); eauto.
      intros x [<-|Hx]; [exact Ea|now apply Hacc].
Qed.

Lemma split_by_none (p : char -> bool) (w : jsstring) :
  (forall c, In c w -> p c = false) -> split_by p w = [w].
Proof.
  induction w as [|c r IH]; intros H; [reflexivity|].
  cbn [split_by]. rewrite (H c) by now left.
  rewrite IH; [reflexivity|]. intros x Hx. apply H. now right.
Qed.

(** The words of the pieces of [split(/\s+/)] are the words of the
    string. *)
Lemma words_split_ws (s : jsstring) :
  flat_map words (split_ws s) = words s.
Proof.
  assert (H : flat_map words (split_ws s) = filter truthy (split_ws s)).
  { assert (Hp : forall w, In w (split_ws s) ->
                           forall c, In c w -> is_ws c = false).
    { apply (split_ws_from_pieces s false []). intros c []. }
    induction (split_ws s) as [|w ws IH]; [reflexivity|].
    cbn [flat_map filter]. rewrite IH by (intros x Hx; apply Hp; now right).
    unfold words at 1. rewrite (split_by_none is_ws w) by (apply Hp; now left).
    cbn [filter]. now destruct (truthy w). }
  rewrite H. unfold split_ws.
  rewrite (split_ws_from_words s false []) by discriminate.
  cbn [rev]. unfold words.
  destruct (split_by is_ws s) as [|h t] eqn:E;
    [now apply split_by_not_nil in E|reflexivity].
Qed.

Lemma words_ws_cons (c : char) (r : jsstring) :
  is_ws c = true -> words (c :: r) = words r.
Proof. intros H. unfold words. cbn [split_by]. now rewrite H. Qed.

Lemma words_dropWhile (s : jsstring) : words (dropWhile is_ws s) = words s.
Proof.
  induction s as [|c r IH]; [reflexivity|].
  cbn [dropWhile]. destruct (is_ws c) eqn:E; [|reflexivity].
  now rewrite IH, (words_ws_cons c r E).
Qed.

Lemma words_rev_dropWhile (r : jsstring) :
  words (rev (dropWhile is_ws r)) = words (rev r).
Proof.
  induction r as [|c r IH]; [reflexivity|].
  cbn [dropWhile rev]. destruct (is_ws c) eqn:E; [|reflexivity].
  rewrite IH. now rewrite (words_app_ws (rev r) [] c E), app_nil_r.
Qed.

(** Trimming keeps the words. *)
Lemma words_trim (s : jsstring) : words (trim s) = words s.
Proof.
  unfold trim. rewrite words_rev_dropWhile, rev_involutive.
  apply words_dropWhile.
Qed.

Lemma positions_length (m : jsstring -> Q) (gap : Q) (ws : list jsstring) :
  forall x : Q, List.length (positions m gap x ws) = List.length ws.
Proof.
  induction ws as [|w rest IH]; intros x; [reflexivity|].
  cbn [positions List.length]. now rewrite IH.
Qed.

Lemma placedAt_texts (m : jsstring -> Q) (gap y : Q) (ws : list jsstring) :
  forall x : Q, map textOf (placedAt y ws (positions m gap x ws)) = ws.
Proof.
  induction ws as [|w rest IH]; intros x; [reflexivity|].
  cbn [positions placedAt combine map]. f_equal. apply IH.
Qed.

Variable measureText : Font -> jsstring -> Q.
Variable st : TextStyle.

(** Whatever branch [drawLine] takes, the words of the texts it places
    are the words of the line. *)
Lemma drawLine_words (n : nat) (lh : Q) (line : jsstring) (index : nat)
      (c : Canvas) :
  exists P : list (jsstring * Q * Q),
    placed (bitmap (drawLine measureText st n lh line index c))
    = placed (bitmap c) ++ P /\
    flat_map words (map textOf P) = words line.
Proof.
  unfold drawLine.
  destruct (Align_eqb (align st) Justify && truthy (trim line)
            && (Z.of_nat index <? Z.of_nat n - 1)%Z).
  - destruct (1 <? List.length (split_ws (trim line)))%nat.
    + eexists. split.
      * unfold forEachi, measure.
        apply (justify_loop measureText st). reflexivity.
      * rewrite placedAt_texts, words_split_ws. apply words_trim.
    + exists [(line, padding, padding + Qnat index * lh)]. split.
      * apply single_word_placed.
      * cbn. apply app_nil_r.
  - eexists [(line, _, padding + Qnat index * lh)]. split.
    + apply whole_line_placed.
    + cbn. apply app_nil_r.
Qed.

Lemma drawLines_words (n : nat) (lh : Q) (lines : list jsstring) :
  forall (i : nat) (c : Canvas),
    exists P : list (jsstring * Q * Q),
      placed (bitmap (forEachi_from (drawLine measureText st n lh) i lines c))
      = placed (bitmap c) ++ P /\
      flat_map words (map textOf P) = flat_map words lines.
Proof.
  induction lines as [|l ls IH]; intros i c; cbn [forEachi_from].
  - exists []. split; [now rewrite app_nil_r|reflexivity].
  - destruct (drawLine_words n lh l i c) as (P1 & Hp1 & Hw1).
    destruct (IH (S i) (drawLine measureText st n lh l i c))
      as (P2 & Hp2 & Hw2).
    exists (P1 ++ P2). split.
    + now rewrite Hp2, Hp1, app_assoc.
    + rewrite map_app, flat_map_app, Hw1, Hw2. reflexivity.
Qed.

Lemma paint_words (dpr : Q) (lines : list jsstring) (c : Canvas) :
  flat_map words
    (map textOf (placed (bitmap (paint measureText st dpr lines c))))
  = flat_map words lines.
Proof.
  unfold paint, seq_, drawLines, forEachi.
  match goal with
  | |- context [forEachi_from ?f 0 lines ?c0] =>
      destruct (drawLines_words (List.length lines) (lineHeightOf st)
                  lines 0 c0) as (P & Hp & Hw)
  end.
  rewrite Hp. exact Hw.
Qed.

End WordFacts.

(** X16. An export that runs draws exactly the words of the document,
    each once and in order, under every alignment (a justified line is
    drawn word by word, any other line whole); these are also the
    words of the rows of the preview. *)
Theorem export_draws_the_words :
  forall (Blob : Type) (measureText : Font -> jsstring -> Q)
         (toBlob : Canvas -> option Blob) (e : Editor) (w : World Blob)
         (c : Canvas),
    canvasRef w = Some c -> has_context c = true ->
    documentLines (text e) <> [] ->
    exists c' : Canvas,
      canvasRef (downloadAsPNG measureText toBlob e w) = Some c' /\
      flat_map words (map textOf (placed (bitmap c'))) = words (text e) /\
      flat_map words (map textOf (placed (bitmap c')))
      = flat_map words (previewRows (text e)).
Proof.
  intros Blob measureText toBlob e w c Hc Hk Hd.
  rewrite (export_runs Blob measureText toBlob e w c Hc Hk Hd).
  cbv zeta. cbn [canvasRef]. eexists. split; [reflexivity|].
  rewrite paint_words. unfold wrappedLinesOf, wrapLines.
  rewrite fold_wrapLine_words. cbn [flat_map app].
  rewrite words_documentLines. split; [reflexivity|].
  unfold previewRows.
  rewrite (words_split newline (text e) newline_is_ws).
  induction (split newline (text e)) as [|l ls IH]; [reflexivity|].
  cbn [map flat_map]. rewrite <- IH. f_equal. destruct l; reflexivity.
Qed.

(** A justified export of two paragraphs with a blank line between. *)
Lemma export_draws_the_words_witness :
  let e := Host.editor "aaaa bbbb  cccc dddd eeee

ffff" (Host.big Justify) in
  let w := Host.world 1 in
  canvasRef w = Some Host.mounted /\
  has_context Host.mounted = true /\
  documentLines (text e) <> [] /\
  exists c' : Canvas,
    canvasRef (downloadAsPNG Host.mono Host.snapshot e w) = Some c' /\
    flat_map words (map textOf (placed (bitmap c'))) = words (text e) /\
    flat_map words (map textOf (placed (bitmap c')))
    = flat_map words (previewRows (text e)).
Proof.
  intros e w.
  assert (H1 : canvasRef w = Some Host.mounted) by reflexivity.
  assert (H2 : has_context Host.mounted = true) by reflexivity.
  assert (H3 : documentLines (text e) <> []) by (vm_compute; discriminate).
  exact (conj H1 (conj H2 (conj H3
           (export_draws_the_words Canvas Host.mono Host.snapshot e w
              Host.mounted H1 H2 H3)))).
Defined.

Section StretchFacts.

Variable m : jsstring -> Q.

Lemma fold_left_sum (ws : list jsstring) :
  forall a : Q,
    fold_left (fun sum word => sum + m word) ws a == a + sumWidths m ws.
Proof.
  induction ws as [|w rest IH]; intros a; cbn [fold_left sumWidths fold_right].
  - ring.
  - rewrite IH. fold (sumWidths m rest). ring.
Qed.

Lemma sumWidths_nonneg (ws : list jsstring) :
  (forall w, In w ws -> 0 <= m w) -> 0 <= sumWidths m ws.
Proof.
  induction ws as [|w rest IH]; intros H; cbn [sumWidths fold_right].
  - discriminate.
  - fold (sumWidths m rest).
    assert (0 <= m w) by (apply H; now left).
    assert (0 <= sumWidths m rest)
      by (apply IH; intros x Hx; apply H; now right).
    lra.
Qed.

Lemma Qnat_nonneg (n : nat) : 0 <= Qnat n.
Proof. unfold Qnat, Qle. cbn. lia. Qed.

(** With a gap that is not negative and widths that are not negative,
    every word of a stretched line starts at or after the first x and
    ends at or before the first x plus all widths and all gaps. *)
Lemma positions_bounds (gap y : Q) (ws : list jsstring) :
  0 <= gap -> (forall w, In w ws -> 0 <= m w) ->
  forall x : Q,
    Forall (fun p : jsstring * Q * Q =>
              x <= snd (fst p) /\
              snd (fst p) + m (textOf p)
              <= x + sumWidths m ws + gap * Qnat (pred (List.length ws)))
           (placedAt y ws (positions m gap x ws)).
Proof.
  intros Hg. induction ws as [|w rest IH]; intros Hm x; [constructor|].
  assert (Hw : 0 <= m w) by (apply Hm; now left).
  assert (Hrest : forall v, In v rest -> 0 <= m v)
    by (intros v Hv; apply Hm; now right).
  pose proof (sumWidths_nonneg rest Hrest) as Hs.
  pose proof (Qmult_le_0_compat gap (Qnat (List.length rest)) Hg
                (Qnat_nonneg _)) as Hp.
  change (placedAt y (w :: rest) (positions m gap x (w :: rest)))
    with ((w, x, y)
          :: placedAt y rest (positions m gap (x + (m w + gap)) rest)).
  cbn [sumWidths fold_right List.length pred]. fold (sumWidths m rest).
  constructor.
  - cbn [fst snd textOf]. split; lra.
  - specialize (IH Hrest (x + (m w + gap))).
    destruct rest as [|w2 rest2]; [constructor|].
    eapply Forall_impl; [|exact IH].
    intros [[s px] py] [H1 H2]. cbn [fst snd textOf] in *.
    split; [lra|].
    cbn [List.length pred] in *.
    rewrite (Qnat_S (List.length rest2)).
    set (G := gap * Qnat (List.length rest2)) in *.
    setoid_replace (gap * (Qnat (List.length rest2) + 1))
      with (G + gap) by (unfold G; ring).
    lra.
Qed.

Lemma Qnat_pred (n : nat) : (1 <= n)%nat -> Qnat (pred n) == Qnat n - 1.
Proof.
  intros H. destruct n as [|k]; [lia|].
  cbn [pred]. rewrite Qnat_S. ring.
Qed.

Lemma Qnat_pred_pos (n : nat) : (1 < n)%nat -> 0 < Qnat n - 1.
Proof.
  intros H. unfold Qnat, Qlt, Qminus, Qplus, Qopp, inject_Z. cbn. lia.
Qed.

End StretchFacts.

(** X17. A stretched line (justify, several words, not the last line)
    is placed with one gap between all words, and the sign of that gap
    is the sign of the slack: when the widths of the words add up to at
    most the available width the gap is not negative, so no word
    overlaps the next, and if moreover no width is negative every word
    lies inside the padded box; when the widths add up to more than the
    available width the gap is negative and the words overlap. *)
Theorem stretched_line_gap :
  forall (measureText : Font -> jsstring -> Q) (st : TextStyle)
         (n : nat) (lh : Q) (line : jsstring) (index : nat) (c : Canvas),
    align st = Justify ->
    (index + 1 < n)%nat ->
    (1 < List.length (split_ws (trim line)))%nat ->
    let ws := split_ws (trim line) in
    let m := measureText (font (ctx c)) in
    let total := fold_left (fun sum word => sum + m word) ws 0 in
    exists gap : Q,
      placed (bitmap (drawLine measureText st n lh line index c))
      = placed (bitmap c)
        ++ placedAt (padding + Qnat index * lh) ws
                    (positions m gap padding ws) /\
      (total <= availableWidth -> 0 <= gap) /\
      (availableWidth < total -> gap < 0) /\
      (total <= availableWidth -> (forall w, In w ws -> 0 <= m w) ->
       Forall (fun p : jsstring * Q * Q =>
                 padding <= snd (fst p) /\
                 snd (fst p) + m (textOf p) <= fixedWidth - padding)
              (placedAt (padding + Qnat index * lh) ws
                        (positions m gap padding ws))).
Proof.
  intros measureText st n lh line index c Ha Hi Hw ws m total.
  pose proof (drawLine_justify_stretched measureText st n lh line index c
                Ha Hi Hw) as Hd.
  cbv zeta in Hd. fold ws m total in Hd.
  set (gap := (availableWidth - total) / (Qnat (List.length ws) - 1)) in *.
  pose proof (Qnat_pred_pos (List.length ws) Hw) as Hpos.
  assert (Hg : gap * (Qnat (List.length ws) - 1) == availableWidth - total).
  { unfold gap. rewrite Qmult_comm. apply Qmult_div_r.
    intros E. rewrite E in Hpos. discriminate Hpos. }
  assert (Hge : total <= availableWidth -> 0 <= gap).
  { intros H. unfold gap. apply Qle_shift_div_l; [exact Hpos|]. lra. }
  exists gap. split; [exact Hd|]. split; [exact Hge|]. split.
  - intros H. unfold gap. apply Qlt_shift_div_r; [exact Hpos|]. lra.
  - intros Ht Hm.
    pose proof (positions_bounds m gap (padding + Qnat index * lh) ws
                  (Hge Ht) Hm padding) as Hb.
    eapply Forall_impl; [|exact Hb].
    intros p [H1 H2]. split; [exact H1|].
    assert (Hn : (1 <= List.length ws)%nat) by (fold ws in Hw; lia).
    rewrite (Qnat_pred (List.length ws) Hn), Hg in H2.
    pose proof (fold_left_sum m ws 0) as Hsum.
    change (fold_left (fun sum word => sum + m word) ws 0) with total in Hsum.
    clearbody total gap.
    unfold availableWidth in *. unfold fixedWidth, padding in *. lra.
Qed.

(** The first line of the two-line document at 48 px: four words of
    115.2 px, a gap that is not negative. *)
Lemma stretched_line_gap_witness :
  let line := lit "aaaa bbbb cccc dddd" in
  let st := Host.big Justify in
  let c := set_font (fontOf st) Host.mounted in
  let ws := split_ws (trim line) in
  align st = Justify /\
  (0 + 1 < 2)%nat /\
  (1 < List.length ws)%nat /\
  exists gap : Q,
    placed (bitmap (drawLine Host.mono st 2 72 line 0 c))
    = placed (bitmap c)
      ++ placedAt (padding + Qnat 0 * 72) ws
                  (positions (Host.mono (font (ctx c))) gap padding ws) /\
    (fold_left (fun sum word => sum + Host.mono (font (ctx c)) word) ws 0
     <= availableWidth -> 0 <= gap).
Proof.
  intros line st c ws.
  assert (H1 : align st = Justify) by reflexivity.
  assert (H2 : (0 + 1 < 2)%nat) by (vm_compute; repeat constructor).
  assert (H3 : (1 < List.length (split_ws (trim line)))%nat)
    by (vm_compute; repeat constructor).
  split; [exact H1|]. split; [exact H2|]. split; [exact H3|].
  destruct (stretched_line_gap Host.mono st 2 72 line 0 c H1 H2 H3)
    as (gap & Hp & Hg & _).
  exists gap. split; [exact Hp|exact Hg].
Defined.

Section HeightFacts.

Variable measureText : Font -> jsstring -> Q.
Variable st : TextStyle.

Lemma placedAt_ys (y : Q) (ws : list jsstring) (xs : list Q) :
  Forall (fun p => yOf p = y) (placedAt y ws xs).
Proof.
  unfold placedAt. apply Forall_forall. intros p Hp.
  apply in_map_iff in Hp as (q & <- & _). reflexivity.
Qed.

Lemma placedAt_nonempty (m : jsstring -> Q) (gap x y : Q)
      (ws : list jsstring) :
  ws <> [] -> placedAt y ws (positions m gap x ws) <> [].
Proof. destruct ws; [contradiction|discriminate]. Qed.

(** Whatever branch [drawLine] takes, it places at least one text and
    all its texts at the y of the line. *)
Lemma drawLine_ys (n : nat) (lh : Q) (line : jsstring) (index : nat)
      (c : Canvas) :
  exists P : list (jsstring * Q * Q),
    placed (bitmap (drawLine measureText st n lh line index c))
    = placed (bitmap c) ++ P /\
    P <> [] /\
    Forall (fun p => yOf p = padding + Qnat index * lh) P.
Proof.
  unfold drawLine.
  destruct (Align_eqb (align st) Justify && truthy (trim line)
            && (Z.of_nat index <? Z.of_nat n - 1)%Z).
  - destruct (1 <? List.length (split_ws (trim line)))%nat eqn:E.
    + eexists. split; [|split].
      * unfold forEachi, measure.
        apply (justify_loop measureText st). reflexivity.
      * apply placedAt_nonempty. apply Nat.ltb_lt in E.
        intros H. rewrite H in E. cbn in E. lia.
      * apply placedAt_ys.
    + exists [(line, padding, padding + Qnat index * lh)].
      split; [apply single_word_placed|].
      split; [discriminate|]. now constructor.
  - eexists [(line, _, padding + Qnat index * lh)].
    split; [apply whole_line_placed|].
    split; [discriminate|]. now constructor.
Qed.

Lemma last_app_nonempty {A : Type} (l1 l2 : list A) (d : A) :
  l2 <> [] -> last (l1 ++ l2) d = last l2 d.
Proof.
  intros H. induction l1 as [|a l1 IH]; [reflexivity|].
  cbn [app]. destruct (l1 ++ l2) eqn:E.
  - apply app_eq_nil in E as [_ E]. contradiction.
  - rewrite <- IH. reflexivity.
Qed.

Lemma last_in {A : Type} (l : list A) (d : A) : l <> [] -> In (last l d) l.
Proof.
  induction l as [|a l IH]; intros H; [contradiction|].
  destruct l as [|b l]; [now left|]. right. apply IH. discriminate.
Qed.

Lemma last_map {A B : Type} (f : A -> B) (l : list A) (d : A) :
  last (map f l) (f d) = f (last l d).
Proof.
  induction l as [|a l IH]; [reflexivity|].
  destruct l as [|b l]; [reflexivity|]. exact IH.
Qed.

(** The rows of the lines drawn from index [i]: every text on the row
    of a line, and the last text on the row of the last line. *)
Lemma drawLines_ys (n : nat) (lh : Q) (lines : list jsstring) :
  forall (i : nat) (c : Canvas),
    exists P : list (jsstring * Q * Q),
      placed (bitmap (forEachi_from (drawLine measureText st n lh) i lines c))
      = placed (bitmap c) ++ P /\
      Forall (fun p => exists j : nat,
                  (i <= j < i + List.length lines)%nat /\
                  yOf p = padding + Qnat j * lh) P /\
      (lines = [] -> P = []) /\
      (lines <> [] ->
       P <> [] /\
       yOf (last P nowhere)
       = padding + Qnat (i + List.length lines - 1) * lh).
Proof.
  induction lines as [|l ls IH]; intros i c; cbn [forEachi_from].
  - exists []. rewrite app_nil_r. repeat split; auto. contradiction.
  - destruct (drawLine_ys n lh l i c) as (P1 & Hp1 & Hn1 & Hy1).
    destruct (IH (S i) (drawLine measureText st n lh l i c))
      as (P2 & Hp2 & Hy2 & He2 & Hl2).
    exists (P1 ++ P2). split; [now rewrite Hp2, Hp1, app_assoc|].
    split; [|split; [discriminate|]].
    + apply Forall_app. split.
      * eapply Forall_impl; [|exact Hy1]. intros p Hp.
        exists i. split; [cbn [List.length]; lia|exact Hp].
      * eapply Forall_impl; [|exact Hy2]. intros p (j & Hj & Hp).
        exists j. split; [cbn [List.length]; lia|exact Hp].
    + intros _. split; [destruct P1; [contradiction|discriminate]|].
      destruct ls as [|l2 ls2].
      * rewrite (He2 eq_refl), app_nil_r.
        rewrite Forall_forall in Hy1.
        rewrite (Hy1 _ (last_in P1 nowhere Hn1)).
        cbn [List.length]. do 2 f_equal. f_equal. lia.
      * destruct Hl2 as [Hn2 Hlast]; [discriminate|].
        rewrite (last_app_nonempty P1 P2 nowhere Hn2), Hlast.
        cbn [List.length]. do 2 f_equal. f_equal. lia.
Qed.

(** The rows after [paint]: every text on the row of one of the lines,
    the last text on the row of the last line, and the CSS height. *)
Lemma paint_ys (dpr : Q) (lines : list jsstring) (c : Canvas) :
  let c' := paint measureText st dpr lines c in
  Forall (fun p => exists j : nat,
              (j < List.length lines)%nat /\
              yOf p = padding + Qnat j * lineHeightOf st)
         (placed (bitmap c')) /\
  (lines <> [] ->
   placed (bitmap c') <> [] /\
   yOf (last (placed (bitmap c')) nowhere)
   = padding + Qnat (List.length lines - 1) * lineHeightOf st) /\
  style_height c' = Some (textHeightOf st lines + padding * 2).
Proof.
  cbv zeta. unfold paint, seq_, drawLines, forEachi.
  match goal with
  | |- context [forEachi_from ?f 0 lines ?c0] =>
      destruct (drawLines_ys (List.length lines) (lineHeightOf st)
                  lines 0 c0) as (P & Hp & Hy & _ & Hl);
      destruct (drawLines_same measureText st (lineHeightOf st) lines c0)
        as (_ & _ & _ & Hsh & _);
      unfold drawLines, forEachi in Hsh;
      assert (E0 : placed (bitmap c0) = []) by reflexivity;
      rewrite E0 in Hp; cbn [app] in Hp; clear E0
  end.
  rewrite Hp, Hsh.
  split; [|split; [|reflexivity]].
  - eapply Forall_impl; [|exact Hy].
    intros p (j & Hj & Ey). exists j. split; [lia|exact Ey].
  - intros Hne. destruct (Hl Hne) as [HP Ey]. split; [exact HP|].
    cbn [plus] in Ey. exact Ey.
Qed.

End HeightFacts.

Lemma Qnat_pred_length {A : Type} (l : list A) :
  l <> [] -> Qnat (List.length l - 1) == Qnat (List.length l) - 1.
Proof.
  intros H. destruct l as [|a r]; [contradiction|].
  cbn [List.length]. rewrite Nat.sub_succ, Nat.sub_0_r, Qnat_S. ring.
Qed.

(** X18. The height of the surface bounds the text tightly: with a
    font size that is not negative, every text an export places has
    its top at or below the top padding and its bottom
    ([y + fontSize]) at or above the bottom padding, and the bottom of
    the last text is exactly at the bottom padding; the CSS height of
    the canvas is the text height plus both paddings. *)
Theorem text_fits_the_height :
  forall (measureText : Font -> jsstring -> Q) (st : TextStyle)
         (dpr : Q) (lines : list jsstring) (c : Canvas),
    0 <= fontSize st ->
    let c' := paint measureText st dpr lines c in
    let H := textHeightOf st lines in
    Forall (fun p => padding <= yOf p /\
                     yOf p + fontSize st <= padding + H)
           (placed (bitmap c')) /\
    (lines <> [] ->
     yOf (last (placed (bitmap c')) nowhere) + fontSize st == padding + H) /\
    style_height c' = Some (H + padding * 2).
Proof.
  intros measureText st dpr lines c HF c' H. subst H.
  destruct (paint_ys measureText st dpr lines c) as (Hy & Hl & Hsh).
  fold c' in Hy, Hl, Hsh.
  split; [|split; [|exact Hsh]].
  - eapply Forall_impl; [|exact Hy].
    intros p (j & Hj & Ey). rewrite Ey.
    unfold textHeightOf, lineHeightOf, padding.
    assert (Ha : 0 <= Qnat j) by apply Qnat_nonneg.
    assert (Hb : Qnat j + 1 <= Qnat (List.length lines)).
    { rewrite <- Qnat_S. unfold Qnat. rewrite <- Zle_Qle. lia. }
    set (a := Qnat j) in *. set (b := Qnat (List.length lines)) in *.
    set (F := fontSize st) in *.
    pose proof (Qmult_le_0_compat a F Ha HF) as P1.
    assert (P2 : 0 <= (b - a - 1) * F)
      by (apply Qmult_le_0_compat; lra).
    split; lra.
  - intros Hne. destruct (Hl Hne) as [_ Ey]. rewrite Ey.
    unfold textHeightOf, lineHeightOf, padding.
    rewrite (Qnat_pred_length lines Hne). ring.
Qed.

(** Three lines at 48 px: rows at 1, 73 and 145, a text height of 192. *)
Lemma text_fits_the_height_witness :
  let st := Host.big Left in
  let lines := [lit "one"; lit "two"; lit "three"] in
  let c' := paint Host.mono st 1 lines Host.mounted in
  0 <= fontSize st /\
  Forall (fun p => padding <= yOf p /\
                   yOf p + fontSize st <= padding + textHeightOf st lines)
         (placed (bitmap c')) /\
  map (fun p => Qred (yOf p)) (placed (bitmap c')) = [1; 73; 145] /\
  Qred (textHeightOf st lines) = 192.
Proof.
  intros st lines c'.
  assert (H : 0 <= fontSize st) by discriminate.
  split; [exact H|]. split.
  - exact (proj1 (text_fits_the_height Host.mono st 1 lines Host.mounted H)).
  - split; vm_compute; reflexivity.
Defined.

(** X19. With underline on, the underline of the last text of an
    export is stroked at [y + fontSize + 2], which is one unit below
    the bottom edge of the logical surface (its height is the text
    height plus both paddings): the last line's underline falls
    outside the canvas. *)
Theorem last_underline_below_surface :
  forall (measureText : Font -> jsstring -> Q) (st : TextStyle)
         (dpr : Q) (lines : list jsstring) (c : Canvas),
    underline st = true -> lines <> [] ->
    let c' := paint measureText st dpr lines c in
    let m := measureText (fontOf st) in
    exists (s : jsstring) (x y : Q),
      last (placed (bitmap c')) nowhere = (s, x, y) /\
      In ([MoveTo x (y + fontSize st + 2);
           LineTo (x + m s) (y + fontSize st + 2)], color st, 1)
         (strokes (bitmap c')) /\
      style_height c' = Some (textHeightOf st lines + padding * 2) /\
      y + fontSize st + 2 == (textHeightOf st lines + padding * 2) + 1.
Proof.
  intros measureText st dpr lines c Hu Hne c' m.
  destruct (paint_ys measureText st dpr lines c) as (_ & Hl & Hsh).
  pose proof (paint_strokes measureText st dpr lines c) as Hs.
  fold c' in Hl, Hsh, Hs. rewrite Hu in Hs. fold m in Hs.
  destruct (Hl Hne) as [HP Ey].
  destruct (last (placed (bitmap c')) nowhere) as [[s x] y] eqn:El.
  exists s, x, y. split; [reflexivity|]. split; [|split; [exact Hsh|]].
  - rewrite Hs.
    apply (in_map (underlineOf st m) (placed (bitmap c')) (s, x, y)).
    rewrite <- El. now apply last_in.
  - unfold yOf in Ey. cbn [snd] in Ey. rewrite Ey.
    unfold textHeightOf, lineHeightOf, padding.
    rewrite (Qnat_pred_length lines Hne). ring.
Qed.

(** One underlined line at 48 px: the surface is 50 high, the underline
    is stroked at 51. *)
Lemma last_underline_below_surface_witness :
  let st := toggleStyle key_underline (Host.big Left) in
  let lines := [lit "hello"] in
  let c' := paint Host.mono st 1 lines Host.mounted in
  underline st = true /\ lines <> [] /\
  (exists (s : jsstring) (x y : Q),
      last (placed (bitmap c')) nowhere = (s, x, y) /\
      In ([MoveTo x (y + fontSize st + 2);
           LineTo (x + Host.mono (fontOf st) s) (y + fontSize st + 2)],
          color st, 1)
         (strokes (bitmap c')) /\
      style_height c' = Some (textHeightOf st lines + padding * 2) /\
      y + fontSize st + 2 == (textHeightOf st lines + padding * 2) + 1) /\
  option_map Qred (style_height c') = Some 50.
Proof.
  intros st lines c'.
  assert (H1 : underline st = true) by reflexivity.
  assert (H2 : lines <> []) by discriminate.
  split; [exact H1|]. split; [exact H2|]. split.
  - exact (last_underline_below_surface Host.mono st 1 lines Host.mounted
             H1 H2).
  - vm_compute. reflexivity.
Defined.

(** X20. Exporting twice in a row, with nothing changed in between,
    leaves the canvas of the first export and saves the same file a
    second time, in every world: with or without a canvas, a context,
    a document or a working encoder. The scale, the bitmap and the
    dimensions of the first export are not piled upon. *)
Theorem export_twice :
  forall (Blob : Type) (measureText : Font -> jsstring -> Q)
         (toBlob : Canvas -> option Blob) (e : Editor) (w : World Blob),
    let w1 := downloadAsPNG measureText toBlob e w in
    let w2 := downloadAsPNG measureText toBlob e w1 in
    canvasRef w2 = canvasRef w1 /\
    devicePixelRatio w2 = devicePixelRatio w /\
    exists files : list (jsstring * Blob),
      saved w1 = saved w ++ files /\ saved w2 = saved w1 ++ files.
Proof.
  intros Blob measureText toBlob e w w1 w2. subst w2 w1.
  destruct (canvasRef w) as [c|] eqn:Hc.
  2:{ assert (E : downloadAsPNG measureText toBlob e w = w)
        by (unfold downloadAsPNG; now rewrite Hc).
      rewrite !E. repeat split. exists []. now rewrite !app_nil_r. }
  destruct (has_context c) eqn:Hk.
  2:{ assert (E : downloadAsPNG measureText toBlob e w = w)
        by (unfold downloadAsPNG; now rewrite Hc, Hk).
      rewrite !E. repeat split. exists []. now rewrite !app_nil_r. }
  destruct (documentLines (text e)) as [|l ls] eqn:Hd.
  - rewrite (export_blank Blob measureText toBlob e w c Hc Hk Hd).
    set (w1 := {| canvasRef := Some (set_font (fontOf (style e)) c);
                  devicePixelRatio := devicePixelRatio w;
                  saved := saved w |}).
    rewrite (export_blank Blob measureText toBlob e w1
               (set_font (fontOf (style e)) c) eq_refl Hk Hd).
    cbn [canvasRef devicePixelRatio saved w1]. repeat split.
    exists []. now rewrite !app_nil_r.
  - assert (Hne : documentLines (text e) <> []) by (rewrite Hd; discriminate).
    rewrite (export_runs Blob measureText toBlob e w c Hc Hk Hne).
    cbv zeta.
    set (c1 := paint measureText (style e) (deviceScale w)
                     (wrappedLinesOf measureText e)
                     (set_font (fontOf (style e)) c)).
    assert (Hk1 : has_context c1 = true).
    { destruct (paint_same measureText (style e) (deviceScale w)
                  (wrappedLinesOf measureText e)
                  (set_font (fontOf (style e)) c)) as [H _].
      fold c1 in H. rewrite H. exact Hk. }
    set (w1 := {| canvasRef := Some c1;
                  devicePixelRatio := devicePixelRatio w;
                  saved := match toBlob c1 with
                           | Some blob =>
                               saved w ++ [(fileName (title e), blob)]
                           | None => saved w
                           end |}).
    rewrite (export_runs Blob measureText toBlob e w1 c1 eq_refl Hk1 Hne).
    cbv zeta.
    assert (Es : deviceScale w1 = deviceScale w) by reflexivity.
    rewrite Es.
    rewrite (paint_forgets measureText (style e) (deviceScale w)
               (wrappedLinesOf measureText e)
               (set_font (fontOf (style e)) c1)
               (set_font (fontOf (style e)) c))
      by (change (has_context c1 = has_context c); congruence).
    fold c1. cbn [canvasRef devicePixelRatio saved w1].
    split; [reflexivity|]. split; [reflexivity|].
    destruct (toBlob c1) as [blob|].
    + exists [(fileName (title e), blob)]. now split.
    + exists []. now rewrite !app_nil_r.
Qed.
